(** * arger: a shallow embedding of [include/arger.hpp]

    The header defines one class, [args::arger_c], a command line parser.
    Its member functions mutate the parser object, call two optional
    callbacks and write the help text to [std::cout].  The embedding keeps
    the parser object as a record, the cells allocated with [new] as a free
    store indexed by addresses, and the observable effects as a list of
    events.  Member functions are computations in a small state monad whose
    failure case stands for undefined behaviour of the C++ code. *)

From Stdlib Require Import ZArith Ascii String Lia.
From stdpp Require Import base option list strings pretty gmap.

Local Open Scope string_scope.
Local Open Scope Z_scope.
Local Open Scope list_scope.

(** ** Characters and text *)

Definition nl : string := String (ascii_of_nat 10) "".
Definition tab : string := String (ascii_of_nat 9) "".

(** [std::isspace] in the "C" locale: space and the controls 9 to 13. *)
Definition isspace (c : ascii) : bool :=
  let n := nat_of_ascii c in
  Nat.eqb n 32 || (Nat.leb 9 n && Nat.leb n 13).

(** ** Errors *)

Inductive errors_e :=
| DUPLICATE_DEFINITION
| MISSING_REQUIRED_ARGUMENT
| INCORRECT_ARGUMENT_TYPE
| EXPECTED_VALUE.


(** ** Argument values

    [arg_t] is [std::variant<std::string, int64_t, double, bool>].  The only
    thing the parser does with a [double] is to render it with
    [std::to_string]; the embedding carries a double as that rendering. *)

Record double := { double_text : string }.

Inductive arg_t :=
| ArgString (s : string)
| ArgInt64 (n : Z)
| ArgDouble (d : double)
| ArgBool (b : bool).

(** [std::to_string] has no overload for [bool]: the argument is promoted
    to [int]. *)
Definition to_string (arg : arg_t) : string :=
  match arg with
  | ArgString s => s
  | ArgInt64 n => pretty n
  | ArgDouble d => double_text d
  | ArgBool b => pretty (if b then 1 else 0)
  end.

(** ** The parser object *)

Record argument_s := {
  req_and_found : option bool;
  value : string;
  is_flag : bool;
}.

(** [std::set<std::string>] is carried as the list of its elements in
    iteration order; [allocated_arg] is an address in the free store. *)
Record arg_def_s := {
  args : list string;
  description : string;
  default_value : string;
  allocated_arg : nat;
}.

(** What the outside world sees of a run. *)
Inductive event :=
| Stdout (text : string)
| PostHelpCb
| ErrorCb (e : errors_e) (ctx : string).

(** The two [std::function] members are either empty or hold a callable;
    calling one is recorded in [effects].  [cells] is the free store: the
    cell at address [p] is [cells !! p]. *)
Record arger_c := {
  post_help_cb_ : bool;
  error_cb_ : bool;
  auto_help_enable_ : bool;
  unmatchd_args_ : list string;
  argument_defs_ : list arg_def_s;
  arguments_map_ : gmap string nat;
  program_name_ : string;
  cells : list argument_s;
  effects : list event;
}.

Definition with_error_cb (b : bool) (s : arger_c) : arger_c :=
  {| post_help_cb_ := post_help_cb_ s; error_cb_ := b;
     auto_help_enable_ := auto_help_enable_ s;
     unmatchd_args_ := unmatchd_args_ s;
     argument_defs_ := argument_defs_ s;
     arguments_map_ := arguments_map_ s;
     program_name_ := program_name_ s;
     cells := cells s; effects := effects s |}.

Definition with_auto_help (b : bool) (s : arger_c) : arger_c :=
  {| post_help_cb_ := post_help_cb_ s; error_cb_ := error_cb_ s;
     auto_help_enable_ := b;
     unmatchd_args_ := unmatchd_args_ s;
     argument_defs_ := argument_defs_ s;
     arguments_map_ := arguments_map_ s;
     program_name_ := program_name_ s;
     cells := cells s; effects := effects s |}.

Definition with_unmatched (l : list string) (s : arger_c) : arger_c :=
  {| post_help_cb_ := post_help_cb_ s; error_cb_ := error_cb_ s;
     auto_help_enable_ := auto_help_enable_ s;
     unmatchd_args_ := l;
     argument_defs_ := argument_defs_ s;
     arguments_map_ := arguments_map_ s;
     program_name_ := program_name_ s;
     cells := cells s; effects := effects s |}.

Definition with_registry (ds : list arg_def_s) (m : gmap string nat)
    (cs : list argument_s) (s : arger_c) : arger_c :=
  {| post_help_cb_ := post_help_cb_ s; error_cb_ := error_cb_ s;
     auto_help_enable_ := auto_help_enable_ s;
     unmatchd_args_ := unmatchd_args_ s;
     argument_defs_ := ds;
     arguments_map_ := m;
     program_name_ := program_name_ s;
     cells := cs; effects := effects s |}.

Definition with_program_name (n : string) (s : arger_c) : arger_c :=
  {| post_help_cb_ := post_help_cb_ s; error_cb_ := error_cb_ s;
     auto_help_enable_ := auto_help_enable_ s;
     unmatchd_args_ := unmatchd_args_ s;
     argument_defs_ := argument_defs_ s;
     arguments_map_ := arguments_map_ s;
     program_name_ := n;
     cells := cells s; effects := effects s |}.

Definition with_cells (cs : list argument_s) (s : arger_c) : arger_c :=
  {| post_help_cb_ := post_help_cb_ s; error_cb_ := error_cb_ s;
     auto_help_enable_ := auto_help_enable_ s;
     unmatchd_args_ := unmatchd_args_ s;
     argument_defs_ := argument_defs_ s;
     arguments_map_ := arguments_map_ s;
     program_name_ := program_name_ s;
     cells := cs; effects := effects s |}.

Definition with_effects (es : list event) (s : arger_c) : arger_c :=
  {| post_help_cb_ := post_help_cb_ s; error_cb_ := error_cb_ s;
     auto_help_enable_ := auto_help_enable_ s;
     unmatchd_args_ := unmatchd_args_ s;
     argument_defs_ := argument_defs_ s;
     arguments_map_ := arguments_map_ s;
     program_name_ := program_name_ s;
     cells := cells s; effects := es |}.

(** ** The monad of member functions *)

Inductive outcome (A : Type) :=
| Ok (x : A) (s : arger_c)
| Undefined.
Arguments Ok {A} x s.
Arguments Undefined {A}.

Definition M (A : Type) : Type := arger_c -> outcome A.

Definition ret {A} (x : A) : M A := fun s => Ok x s.

Definition bind {A B} (m : M A) (k : A -> M B) : M B :=
  fun s => match m s with
           | Ok x s' => k x s'
           | Undefined => Undefined
           end.

Definition undefined {A} : M A := fun _ => Undefined.
Definition get : M arger_c := fun s => Ok s s.
Definition modify (f : arger_c -> arger_c) : M unit := fun s => Ok tt (f s).

Declare Scope arger_scope.
Delimit Scope arger_scope with arger.
Notation "x <- m ;; k" := (bind m (fun x => k))
  (at level 100, m at next level, right associativity) : arger_scope.
Notation "m ;;; k" := (bind m (fun _ => k))
  (at level 100, right associativity) : arger_scope.
Local Open Scope arger_scope.

(** Emitting an event. *)
Definition emit (e : event) : M unit :=
  modify (fun s => with_effects (effects s ++ [e]) s).

(** [if (error_cb_) error_cb_(e, ctx);] *)
Definition call_error_cb (e : errors_e) (ctx : string) : M unit :=
  s <- get ;;
  if error_cb_ s then emit (ErrorCb e ctx) else ret tt.

(** [if (post_help_cb_) post_help_cb_();] *)
Definition call_post_help_cb : M unit :=
  s <- get ;;
  if post_help_cb_ s then emit PostHelpCb else ret tt.

(** Reading and writing through a pointer.  A pointer outside the free
    store is dangling. *)
Definition load (p : nat) : M argument_s :=
  s <- get ;;
  match cells s !! p with
  | Some c => ret c
  | None => undefined
  end.

Definition store (p : nat) (c : argument_s) : M unit :=
  s <- get ;;
  match cells s !! p with
  | Some _ => modify (with_cells (<[p := c]> (cells s)))
  | None => undefined
  end.

(** [arguments_map_[arg]] for a key that is present.  For a missing key
    [operator[]] would insert a null pointer, and every use in the class
    dereferences the result at once. *)
Definition map_at (arg : string) : M nat :=
  s <- get ;;
  match arguments_map_ s !! arg with
  | Some p => ret p
  | None => undefined
  end.

(** ** Construction and the small members *)

(** [arger_c(post_help_cb_f post_help_cb)]; every other member takes its
    default member initialiser. *)
Definition arger_new (post_help_cb : bool) : arger_c :=
  {| post_help_cb_ := post_help_cb; error_cb_ := false;
     auto_help_enable_ := true;
     unmatchd_args_ := [];
     argument_defs_ := [];
     arguments_map_ := ∅;
     program_name_ := "";
     cells := []; effects := [] |}.

Definition set_error_cb (error_cb : bool) : M unit :=
  modify (with_error_cb error_cb).

Definition set_auto_help (enable : bool) : M unit :=
  modify (with_auto_help enable).

Definition get_program_name (s : arger_c) : string := program_name_ s.

Definition get_unmatched_args (s : arger_c) : list string := unmatchd_args_ s.

(** ** Registration *)

Definition new_argument_s (c : argument_s) : M nat :=
  s <- get ;;
  modify (with_cells (cells s ++ [c])) ;;;
  ret (length (cells s)).

Definition add_arg (arg : list string) (description : string)
    (default_value : arg_t) (required is_flag : bool) : M bool :=
  s <- get ;;
  match List.find (fun a => bool_decide (is_Some (arguments_map_ s !! a))) arg with
  | Some a =>
      call_error_cb DUPLICATE_DEFINITION a ;;;
      ret false
  | None =>
      argument <- new_argument_s
        {| req_and_found := if required then Some false else None;
           value := to_string default_value;
           is_flag := is_flag |} ;;
      modify (fun s => with_registry
        (argument_defs_ s ++
           [ {| args := arg; description := description;
                default_value := to_string default_value;
                allocated_arg := argument |} ])
        (foldl (fun m a => <[a := argument]> m) (arguments_map_ s) arg)
        (cells s) s) ;;;
      ret true
  end.

Definition add_argument (arg : list string) (description : string)
    (default_value : arg_t) (required : bool) : M bool :=
  add_arg arg description default_value required false.

Definition add_flag (arg : list string) (description : string)
    (default_value : bool) (required : bool) : M bool :=
  add_arg arg description (ArgBool default_value) required true.

(** ** Help *)

Definition concat_aliases (l : list string) : string :=
  foldl (fun acc a => acc +:+ a +:+ " ") "" l.

Definition help_entry (d : arg_def_s) (c : argument_s) : string :=
  concat_aliases (args d)
  +:+ tab +:+ "desc:" +:+ description d
  +:+ tab +:+ "default:"
  +:+ (if bool_decide (default_value d = "") then "<none>" else default_value d)
  +:+ tab
  +:+ (if req_and_found c is Some _ then "<required>" else "<optional>")
  +:+ nl +:+ nl.

Fixpoint help_entries (defs : list arg_def_s) : M string :=
  match defs with
  | [] => ret ""
  | d :: defs' =>
      c <- load (allocated_arg d) ;;
      rest <- help_entries defs' ;;
      ret (help_entry d c +:+ rest)
  end.

Definition print_help : M unit :=
  s <- get ;;
  body <- help_entries (argument_defs_ s) ;;
  emit (Stdout ("Usage: " +:+ program_name_ s +:+ " [options]" +:+ nl +:+ nl
                +:+ "Options:" +:+ nl +:+ nl +:+ body)) ;;;
  call_post_help_cb.

(** ** Parsing *)

Definition set_value (v : string) (c : argument_s) : argument_s :=
  {| req_and_found := req_and_found c; value := v; is_flag := is_flag c |}.

Definition set_found (c : argument_s) : argument_s :=
  {| req_and_found := Some true; value := value c; is_flag := is_flag c |}.

Definition conditionally_mark_found (arg : string) : M unit :=
  p <- map_at arg ;;
  c <- load p ;;
  if req_and_found c is Some _ then store p (set_found c) else ret tt.

Definition handle_flag (arg : string) : M bool :=
  p <- map_at arg ;;
  c <- load p ;;
  store p (set_value "true" c) ;;;
  conditionally_mark_found arg ;;;
  ret true.

(** [idx] is passed by reference: the new index is returned with the
    result. *)
Definition handle_argument (argv : list string) (idx : nat) : M (bool * nat) :=
  match argv !! idx with
  | None => undefined
  | Some arg =>
      if decide (length argv <= idx + 1)%nat then
        call_error_cb EXPECTED_VALUE arg ;;;
        ret (false, idx)
      else
        match argv !! (idx + 1)%nat with
        | None => undefined
        | Some v =>
            p <- map_at arg ;;
            c <- load p ;;
            store p (set_value v c) ;;;
            conditionally_mark_found arg ;;;
            ret (true, (idx + 1)%nat)
        end
  end.

Definition is_help_alias (tok : string) : bool :=
  bool_decide (tok = "-h") || bool_decide (tok = "--help").

(** The [for] loop of [parse], from index [i] on.  [n] bounds the number
    of iterations left; [parse] starts it with [args.size()]. *)
Fixpoint parse_loop (n : nat) (argv : list string) (i : nat) : M bool :=
  if decide (i < length argv)%nat then
    match n, argv !! i with
    | S n', Some tok =>
        s <- get ;;
        if auto_help_enable_ s && is_help_alias tok then
          print_help ;;;
          call_post_help_cb ;;;
          parse_loop n' argv (i + 1)%nat
        else
          match arguments_map_ s !! tok with
          | None =>
              modify (fun s => with_unmatched (unmatchd_args_ s ++ [tok]) s) ;;;
              parse_loop n' argv (i + 1)%nat
          | Some p =>
              arg <- load p ;;
              r <- (if is_flag arg
                    then (b <- handle_flag tok ;; ret (b, i))
                    else handle_argument argv i) ;;
              if fst r then parse_loop n' argv (snd r + 1)%nat
              else ret false
          end
    | _, _ => undefined
    end
  else ret true.

(** The second loop of [parse]. *)
Fixpoint check_required (defs : list arg_def_s) : M bool :=
  match defs with
  | [] => ret true
  | d :: defs' =>
      c <- load (allocated_arg d) ;;
      if req_and_found c is Some false then
        call_error_cb MISSING_REQUIRED_ARGUMENT (concat_aliases (args d)) ;;;
        ret false
      else check_required defs'
  end.

Definition parse (argv : list string) : M bool :=
  match argv !! 0%nat with
  | None => undefined
  | Some prog =>
      modify (with_program_name prog) ;;;
      ok <- parse_loop (length argv) argv 0 ;;
      if ok then
        s <- get ;;
        check_required (argument_defs_ s)
      else ret false
  end.

(** ** Retrieval

    [get_arg<T>] runs [T val; ss >> val; return val;] on the stored text.
    [extract val text] is the content of [val] after the extraction, given
    its content before: the formatted extractors leave [val] alone when the
    stream holds nothing but white space. *)

Class Extract (T : Type) := extract : T -> string -> T.

Fixpoint skipws (s : string) : string :=
  match s with
  | String c s' => if isspace c then skipws s' else s
  | EmptyString => EmptyString
  end.

Fixpoint word (s : string) : string :=
  match s with
  | String c s' => if isspace c then EmptyString else String c (word s')
  | EmptyString => EmptyString
  end.

Definition digit (c : ascii) : option Z :=
  let n := Z.of_nat (nat_of_ascii c) in
  if (48 <=? n) && (n <=? 57) then Some (n - 48) else None.

(** The value of the longest prefix of decimal digits, if there is one. *)
Fixpoint digits (s : string) (acc : option Z) : option Z :=
  match s with
  | String c s' =>
      match digit c with
      | Some d => digits s' (Some (10 * default 0 acc + d))
      | None => acc
      end
  | EmptyString => acc
  end.

Definition LONG_MAX : Z := 2 ^ 63 - 1.
Definition LONG_MIN : Z := - 2 ^ 63.

(** [num_get] for [long] in base ten: an optional sign and digits; zero
    when there is no digit, the nearest bound on overflow. *)
Definition extract_long (s : string) : Z :=
  let '(neg, s1) :=
    match s with
    | String "-" s' => (true, s')
    | String "+" s' => (false, s')
    | _ => (false, s)
    end in
  match digits s1 None with
  | None => 0
  | Some n => Z.max LONG_MIN (Z.min LONG_MAX (if neg then - n else n))
  end.

#[export] Instance extract_string : Extract string := fun val text =>
  match skipws text with
  | EmptyString => val
  | s => word s
  end.

#[export] Instance extract_int64 : Extract Z := fun val text =>
  match skipws text with
  | EmptyString => val
  | s => extract_long s
  end.

(** Without [boolalpha] a [bool] is read as a [long]: 0 is [false], 1 is
    [true], anything else stores [true]. *)
#[export] Instance extract_bool : Extract bool := fun val text =>
  match skipws text with
  | EmptyString => val
  | s =>
      let l := extract_long s in
      if l =? 0 then false else if l =? 1 then true else true
  end.

Definition get_arg {T} `{Extract T} (val : T) (arg : string) : M (option T) :=
  s <- get ;;
  match arguments_map_ s !! arg with
  | None => ret None
  | Some p =>
      c <- load p ;;
      ret (Some (extract val (value c)))
  end.

(** ** The scan seen from the cursor

    [parse_loop] only ever reads [args[i]] and [args[i + 1]] and moves [i]
    forward, so the loop is a function of the tokens from the cursor on.
    [scan] is that function; [parse_loop_scan] below relates the two. *)

Fixpoint scan (toks : list string) : M bool :=
  match toks with
  | [] => ret true
  | tok :: rest =>
      s <- get ;;
      if auto_help_enable_ s && is_help_alias tok then
        print_help ;;;
        call_post_help_cb ;;;
        scan rest
      else
        match arguments_map_ s !! tok with
        | None =>
            modify (fun s => with_unmatched (unmatchd_args_ s ++ [tok]) s) ;;;
            scan rest
        | Some p =>
            arg <- load p ;;
            if is_flag arg then
              handle_flag tok ;;;
              scan rest
            else
              match rest with
              | [] =>
                  call_error_cb EXPECTED_VALUE tok ;;;
                  ret false
              | v :: rest' =>
                  p <- map_at tok ;;
                  c <- load p ;;
                  store p (set_value v c) ;;;
                  conditionally_mark_found tok ;;;
                  scan rest'
              end
        end
  end.

(** What is left of [parse] once the cursor stands before [toks]. *)
Definition parse_rest (toks : list string) : M bool :=
  ok <- scan toks ;;
  if ok then
    s <- get ;;
    check_required (argument_defs_ s)
  else ret false.

(** The state in which the scan of [argv] starts. *)
Definition start (argv : list string) (s : arger_c) : arger_c :=
  with_program_name (List.hd "" argv) s.

(** ** Vocabulary of the statements *)

(** The state after [if (error_cb_) error_cb_(e, ctx);]. *)
Definition after_error_cb (e : errors_e) (ctx : string) (s : arger_c) : arger_c :=
  if error_cb_ s then with_effects (effects s ++ [ErrorCb e ctx]) s else s.

(** The cell after [conditionally_mark_found]. *)
Definition mark_found (c : argument_s) : argument_s :=
  if req_and_found c is Some _ then set_found c else c.

(** Writing a cell through a pointer. *)
Definition write_cell (p : nat) (c : argument_s) (s : arger_c) : arger_c :=
  with_cells (<[p := c]> (cells s)) s.

(** Every pointer held by the parser points into the free store. *)
Definition wf (s : arger_c) : Prop :=
  (forall k p, arguments_map_ s !! k = Some p -> (p < length (cells s))%nat) /\
  Forall (fun d => (allocated_arg d < length (cells s))%nat) (argument_defs_ s).

(** A required definition that has not been seen. *)
Definition missing (s : arger_c) (d : arg_def_s) : Prop :=
  exists c, cells s !! allocated_arg d = Some c /\ req_and_found c = Some false.

(** Two parser objects that agree on everything the parser reads back,
    apart from the error callback, the effects so far and, unless [pn] is
    set, the program name; the second may hold the unmatched tokens [u] in
    front of those of the first. *)
Definition agree (pn : bool) (u : list string) (s t : arger_c) : Prop :=
  post_help_cb_ s = post_help_cb_ t /\
  auto_help_enable_ s = auto_help_enable_ t /\
  argument_defs_ s = argument_defs_ t /\
  arguments_map_ s = arguments_map_ t /\
  cells s = cells t /\
  unmatchd_args_ t = u ++ unmatchd_args_ s /\
  (pn = true -> program_name_ s = program_name_ t).

Definition agree_out (pn : bool) (u : list string) {A} (o1 o2 : outcome A) : Prop :=
  match o1, o2 with
  | Ok x s, Ok y t => x = y /\ agree pn u s t
  | Undefined, Undefined => True
  | _, _ => False
  end.

(** A computation respects [agree]: from parsers that agree it gives
    the same result and parsers that agree, or is undefined on both. *)
Definition Sim (pn : bool) (u : list string) {A} (m1 m2 : M A) : Prop :=
  forall s t, agree pn u s t -> agree_out pn u (m1 s) (m2 t).

(** What a member function never touches once registration is over. *)
Definition stable (s s' : arger_c) : Prop :=
  post_help_cb_ s' = post_help_cb_ s /\
  error_cb_ s' = error_cb_ s /\
  auto_help_enable_ s' = auto_help_enable_ s /\
  argument_defs_ s' = argument_defs_ s /\
  arguments_map_ s' = arguments_map_ s /\
  program_name_ s' = program_name_ s /\
  length (cells s') = length (cells s).

Definition Stable {A} (m : M A) : Prop :=
  forall s x s', m s = Ok x s' -> stable s s'.

(** The text [print_help] writes, and the state after the callback. *)
Definition help_body (cs : list argument_s) (defs : list arg_def_s) : string :=
  foldr (fun d acc =>
           match cs !! allocated_arg d with
           | Some c => help_entry d c +:+ acc
           | None => acc
           end) "" defs.

Definition help_text (s : arger_c) : string :=
  "Usage: " +:+ program_name_ s +:+ " [options]" +:+ nl +:+ nl
  +:+ "Options:" +:+ nl +:+ nl +:+ help_body (cells s) (argument_defs_ s).

Definition after_post_help_cb (s : arger_c) : arger_c :=
  if post_help_cb_ s then with_effects (effects s ++ [PostHelpCb]) s else s.

(** ** Clients *)

(** A client of the class: a sequence of calls of the members that
    return a [bool]. *)
Inductive call :=
| AddArgument (arg : list string) (description : string)
    (default_value : arg_t) (required : bool)
| AddFlag (arg : list string) (description : string)
    (default_value : bool) (required : bool)
| Parse (argv : list string).

Definition do_call (c : call) : M bool :=
  match c with
  | AddArgument arg description default_value required =>
      add_argument arg description default_value required
  | AddFlag arg description default_value required =>
      add_flag arg description default_value required
  | Parse argv => parse argv
  end.

Fixpoint do_calls (cs : list call) : M (list bool) :=
  match cs with
  | [] => ret []
  | c :: cs' =>
      b <- do_call c ;;
      bs <- do_calls cs' ;;
      ret (b :: bs)
  end.

Definition run {A} (m : M A) (s : arger_c) : option (A * arger_c) :=
  match m s with
  | Ok x s' => Some (x, s')
  | Undefined => None
  end.

(** The state a computation leaves behind. *)
Definition after {A} (m : M A) (s : arger_c) : arger_c :=
  match m s with
  | Ok _ s' => s'
  | Undefined => s
  end.

(** The iteration order of a [std::set<std::string>] built from a list:
    increasing, without repetition. *)
Fixpoint set_insert (x : string) (l : list string) : list string :=
  match l with
  | [] => [x]
  | y :: l' =>
      match String.compare x y with
      | Lt => x :: l
      | Eq => l
      | Gt => y :: set_insert x l'
      end
  end.

Definition string_set (l : list string) : list string :=
  foldl (fun acc x => set_insert x acc) [] l.

(** The parsers of the test programs: [tests/help.cpp] registers an
    optional flag, [tests/required.cpp] a required option; both install a
    post-help callback and an error callback. *)
Definition help_parser : arger_c :=
  after (set_error_cb true ;;;
         add_flag (string_set ["-b"; "--bool"]) "A bool" false false)
        (arger_new true).

Definition required_parser : arger_c :=
  after (set_error_cb true ;;;
         add_argument (string_set ["-b"; "--bool"]) "A bool" (ArgBool true) true)
        (arger_new true).

(** ** Vocabulary of the further properties *)

(** The calls of the error callback among some events. *)
Definition is_error_call (e : event) : bool :=
  match e with
  | ErrorCb _ _ => true
  | _ => false
  end.

Definition error_calls (es : list event) : nat :=
  length (List.filter is_error_call es).

(** How a cell may change: the kind stays, and the found-state either
    stays or goes from [false] to [true]. *)
Definition cell_evolves (c c' : argument_s) : Prop :=
  is_flag c' = is_flag c /\
  (req_and_found c' = req_and_found c \/
   (req_and_found c = Some false /\ req_and_found c' = Some true)).

Definition evolves (s s' : arger_c) : Prop :=
  forall p c, cells s !! p = Some c ->
    exists c', cells s' !! p = Some c' /\ cell_evolves c c'.

(** A token the scan can only leave unmatched. *)
Definition unmatchable (s : arger_c) (tok : string) : Prop :=
  arguments_map_ s !! tok = None /\
  auto_help_enable_ s && is_help_alias tok = false.

(** A text without white space. *)
Fixpoint no_space (t : string) : bool :=
  match t with
  | String c t' => negb (isspace c) && no_space t'
  | EmptyString => true
  end.

(** * Properties *)

(** ** Monad laws at a state *)

Lemma bind_ret_l {A B} (x : A) (k : A -> M B) s : bind (ret x) k s = k x s.
Proof. reflexivity. Qed.

Lemma bind_get {B} (k : arger_c -> M B) s : bind get k s = k s s.
Proof. reflexivity. Qed.

Lemma bind_modify {B} f (k : unit -> M B) s : bind (modify f) k s = k tt (f s).
Proof. reflexivity. Qed.

Lemma bind_assoc {A B C} (m : M A) (k : A -> M B) (h : B -> M C) s :
  bind (bind m k) h s = bind m (fun x => bind (k x) h) s.
Proof. unfold bind. destruct (m s); reflexivity. Qed.

Lemma bind_ok {A B} (m : M A) (k : A -> M B) s x s' :
  m s = Ok x s' -> bind m k s = k x s'.
Proof. unfold bind. intros ->. reflexivity. Qed.

Lemma bind_undefined {A B} (m : M A) (k : A -> M B) s :
  m s = Undefined -> bind m k s = Undefined.
Proof. unfold bind. intros ->. reflexivity. Qed.

Lemma bind_ext {A B} (m : M A) (k1 k2 : A -> M B) s :
  (forall x s', k1 x s' = k2 x s') -> bind m k1 s = bind m k2 s.
Proof. unfold bind. intros H. destruct (m s); auto. Qed.

(** ** The loop and its cursor view *)

Lemma handle_flag_true tok s b s' : handle_flag tok s = Ok b s' -> b = true.
Proof.
  unfold handle_flag, conditionally_mark_found, map_at, load, store,
    bind, get, ret, modify, undefined.
  intros H. repeat case_match; simplify_eq; reflexivity.
Qed.

Lemma parse_loop_scan n argv i s :
  (length argv - i <= n)%nat ->
  parse_loop n argv i s = scan (drop i argv) s.
Proof.
  revert i s. induction n as [|n IH]; intros i s Hn.
  - simpl. destruct (decide (i < length argv)%nat) as [Hi|Hi]; [lia|].
    rewrite drop_ge by lia. reflexivity.
  - simpl. destruct (decide (i < length argv)%nat) as [Hi|Hi].
    2:{ rewrite drop_ge by lia. reflexivity. }
    destruct (lookup_lt_is_Some_2 argv i Hi) as [tok Htok].
    rewrite Htok, (drop_S _ _ _ Htok). simpl.
    rewrite !bind_get.
    destruct (auto_help_enable_ s && is_help_alias tok).
    { apply bind_ext; intros _ s1. apply bind_ext; intros _ s2.
      rewrite Nat.add_1_r. apply IH. lia. }
    destruct (arguments_map_ s !! tok) as [p|].
    2:{ apply bind_ext; intros _ s1. rewrite Nat.add_1_r. apply IH. lia. }
    apply bind_ext; intros arg s1.
    destruct (is_flag arg).
    + rewrite bind_assoc. unfold bind at 1 3.
      destruct (handle_flag tok s1) as [b s2|] eqn:Hf; [|reflexivity].
      apply handle_flag_true in Hf as ->. rewrite bind_ret_l. simpl.
      rewrite Nat.add_1_r. apply IH. lia.
    + unfold handle_argument. rewrite Htok.
      destruct (decide (length argv <= i + 1)%nat) as [Hl|Hl].
      * rewrite (drop_ge argv (S i)) by lia.
        rewrite bind_assoc. apply bind_ext; intros _ s2. reflexivity.
      * destruct (lookup_lt_is_Some_2 argv (i + 1) ltac:(lia)) as [v Hv].
        rewrite Hv. rewrite Nat.add_1_r in Hv. rewrite (drop_S _ _ _ Hv).
        rewrite !bind_assoc. apply bind_ext; intros p' s2.
        rewrite !bind_assoc. apply bind_ext; intros c s3.
        rewrite !bind_assoc. apply bind_ext; intros _ s4.
        rewrite !bind_assoc. apply bind_ext; intros _ s5.
        rewrite bind_ret_l. simpl. rewrite !Nat.add_1_r. apply IH. lia.
Qed.

Lemma parse_start argv s :
  argv <> [] -> parse argv s = parse_rest argv (start argv s).
Proof.
  intros Hne. destruct argv as [|prog rest]; [done|].
  unfold parse, parse_rest, start. simpl List.hd.
  change ((prog :: rest) !! 0%nat) with (Some prog). cbv beta iota.
  rewrite bind_modify. unfold bind.
  rewrite parse_loop_scan by lia. reflexivity.
Qed.

(** Induction along the cursor: it moves by one token or by two. *)
Lemma cursor_ind (P : list string -> Prop) :
  P [] ->
  (forall tok rest,
      P rest -> (forall v rest', rest = v :: rest' -> P rest') -> P (tok :: rest)) ->
  forall toks, P toks.
Proof.
  intros Hnil Hcons toks.
  assert (H : P toks /\ (forall v rest', toks = v :: rest' -> P rest')).
  { induction toks as [|tok rest [IH1 IH2]].
    - split; [exact Hnil|]. intros; discriminate.
    - split.
      + apply Hcons; assumption.
      + intros v rest' [= _ <-]. exact IH1. }
  exact (proj1 H).
Qed.

(** ** What the members do to the state *)

Lemma with_cells_id s : with_cells (cells s) s = s.
Proof. destruct s; reflexivity. Qed.

Lemma write_cell_id p c s : cells s !! p = Some c -> write_cell p c s = s.
Proof.
  intros H. unfold write_cell. rewrite list_insert_id by exact H.
  apply with_cells_id.
Qed.

Lemma write_cell_write_cell p c c' s :
  write_cell p c' (write_cell p c s) = write_cell p c' s.
Proof. unfold write_cell. simpl. rewrite list_insert_insert_eq. reflexivity. Qed.

Lemma call_error_cb_eq e ctx s :
  call_error_cb e ctx s = Ok tt (after_error_cb e ctx s).
Proof.
  unfold call_error_cb, after_error_cb, emit. rewrite bind_get.
  destruct (error_cb_ s); reflexivity.
Qed.

Lemma conditionally_mark_found_eq tok s p c :
  arguments_map_ s !! tok = Some p ->
  cells s !! p = Some c ->
  conditionally_mark_found tok s = Ok tt (write_cell p (mark_found c) s).
Proof.
  intros Hp Hc.
  unfold conditionally_mark_found, map_at, load, store, mark_found,
    bind, get, ret, modify, undefined.
  rewrite Hp, Hc. destruct (req_and_found c).
  - rewrite Hc. reflexivity.
  - rewrite write_cell_id by exact Hc. reflexivity.
Qed.

Lemma store_value_eq {B} (k : M B) tok v s p c :
  arguments_map_ s !! tok = Some p ->
  cells s !! p = Some c ->
  (p' <- map_at tok ;; c' <- load p' ;; store p' (set_value v c') ;;;
   conditionally_mark_found tok ;;; k) s
  = k (write_cell p (mark_found (set_value v c)) s).
Proof.
  intros Hp Hc.
  assert (Hlt : (p < length (cells s))%nat) by (eapply lookup_lt_Some; eauto).
  unfold map_at at 1. rewrite bind_assoc, bind_get, Hp, bind_ret_l.
  unfold load at 1. rewrite bind_assoc, bind_get, Hc, bind_ret_l.
  unfold store. rewrite bind_assoc, bind_get, Hc, bind_modify.
  erewrite bind_ok.
  2:{ apply conditionally_mark_found_eq with (c := set_value v c).
      - exact Hp.
      - simpl. apply list_lookup_insert_eq. exact Hlt. }
  fold (write_cell p (set_value v c) s).
  rewrite write_cell_write_cell. reflexivity.
Qed.

Lemma handle_flag_eq tok s p c :
  arguments_map_ s !! tok = Some p ->
  cells s !! p = Some c ->
  handle_flag tok s = Ok true (write_cell p (mark_found (set_value "true" c)) s).
Proof.
  intros Hp Hc. unfold handle_flag.
  rewrite (store_value_eq (ret true) tok "true" s p c Hp Hc). reflexivity.
Qed.

Lemma bind_inv {A B} (m : M A) (k : A -> M B) s y s' :
  bind m k s = Ok y s' -> exists x s1, m s = Ok x s1 /\ k x s1 = Ok y s'.
Proof. unfold bind. destruct (m s) as [x s1|]; [eauto|discriminate]. Qed.

(** ** One step of the scan *)

Section ScanStep.
Variables (tok : string) (s : arger_c).

Lemma scan_help rest :
  auto_help_enable_ s && is_help_alias tok = true ->
  scan (tok :: rest) s = (print_help ;;; call_post_help_cb ;;; scan rest) s.
Proof. intros H. simpl. rewrite bind_get, H. reflexivity. Qed.

Hypothesis Hnohelp : auto_help_enable_ s && is_help_alias tok = false.

Lemma scan_unmatched rest :
  arguments_map_ s !! tok = None ->
  scan (tok :: rest) s
  = scan rest (with_unmatched (unmatchd_args_ s ++ [tok]) s).
Proof. intros H. simpl. rewrite bind_get, Hnohelp, H. reflexivity. Qed.

Lemma scan_dangling rest p :
  arguments_map_ s !! tok = Some p ->
  cells s !! p = None ->
  scan (tok :: rest) s = Undefined.
Proof.
  intros Hp Hc. simpl. rewrite bind_get, Hnohelp, Hp.
  unfold load. rewrite bind_assoc, bind_get, Hc. reflexivity.
Qed.

Variables (p : nat) (c : argument_s).
Hypothesis Hp : arguments_map_ s !! tok = Some p.
Hypothesis Hc : cells s !! p = Some c.

Lemma scan_flag rest :
  is_flag c = true ->
  scan (tok :: rest) s
  = scan rest (write_cell p (mark_found (set_value "true" c)) s).
Proof.
  intros Hf. simpl. rewrite bind_get, Hnohelp, Hp.
  unfold load. rewrite bind_assoc, bind_get, Hc, bind_ret_l, Hf.
  erewrite bind_ok by (apply handle_flag_eq; eassumption). reflexivity.
Qed.

Lemma scan_value_end :
  is_flag c = false ->
  scan [tok] s = Ok false (after_error_cb EXPECTED_VALUE tok s).
Proof.
  intros Hf. simpl. rewrite bind_get, Hnohelp, Hp.
  unfold load. rewrite bind_assoc, bind_get, Hc, bind_ret_l, Hf.
  erewrite bind_ok by apply call_error_cb_eq. reflexivity.
Qed.

Lemma scan_value v rest :
  is_flag c = false ->
  scan (tok :: v :: rest) s
  = scan rest (write_cell p (mark_found (set_value v c)) s).
Proof.
  intros Hf. simpl. rewrite bind_get, Hnohelp, Hp.
  unfold load at 1. rewrite bind_assoc, bind_get, Hc, bind_ret_l, Hf.
  apply (store_value_eq (scan rest) tok v s p c Hp Hc).
Qed.
End ScanStep.

(** The scan of a list of tokens that ends at a token boundary is a prefix
    of the scan of any longer list. *)
Lemma scan_app pre rest s s1 :
  scan pre s = Ok true s1 -> scan (pre ++ rest) s = scan rest s1.
Proof.
  revert s. induction pre as [|tok pre IH1 IH2] using cursor_ind; intros s H.
  - simpl in H. injection H as <-. reflexivity.
  - destruct (auto_help_enable_ s && is_help_alias tok) eqn:Hh.
    { rewrite scan_help in H by exact Hh.
      change ((tok :: pre) ++ rest) with (tok :: (pre ++ rest)).
      rewrite scan_help by exact Hh.
      apply bind_inv in H as (? & s2 & H2 & H).
      apply bind_inv in H as (? & s3 & H3 & H).
      rewrite (bind_ok _ _ _ _ _ H2), (bind_ok _ _ _ _ _ H3). auto. }
    change ((tok :: pre) ++ rest) with (tok :: (pre ++ rest)).
    destruct (arguments_map_ s !! tok) as [p|] eqn:Hp.
    2:{ rewrite scan_unmatched in * by assumption. auto. }
    destruct (cells s !! p) as [c|] eqn:Hc.
    2:{ erewrite scan_dangling in H by eassumption. discriminate. }
    destruct (is_flag c) eqn:Hf.
    { erewrite scan_flag in * by eassumption. auto. }
    destruct pre as [|v pre'].
    { erewrite scan_value_end in H by eassumption. discriminate. }
    change ((v :: pre') ++ rest) with (v :: (pre' ++ rest)).
    erewrite scan_value in * by eassumption. eapply IH2; eauto.
Qed.

Lemma parse_rest_app pre rest s s1 :
  scan pre s = Ok true s1 -> parse_rest (pre ++ rest) s = parse_rest rest s1.
Proof.
  intros H. unfold parse_rest, bind. rewrite (scan_app _ _ _ _ H). reflexivity.
Qed.

(** A scan that fails has stopped at the last token, which is a
    value-bearing option, in the state the scan had reached before it. *)
Lemma scan_false toks s s' :
  scan toks s = Ok false s' ->
  exists pre tok s1,
    toks = pre ++ [tok] /\ scan pre s = Ok true s1 /\
    s' = after_error_cb EXPECTED_VALUE tok s1.
Proof.
  revert s. induction toks as [|tok rest IH1 IH2] using cursor_ind; intros s H.
  - discriminate.
  - assert (Hcons : forall s2,
      scan (tok :: rest) s = scan rest s2 ->
      (forall pre s1, scan pre s2 = Ok true s1 -> scan (tok :: pre) s = Ok true s1) ->
      exists pre tok' s1, tok :: rest = pre ++ [tok'] /\ scan pre s = Ok true s1 /\
        s' = after_error_cb EXPECTED_VALUE tok' s1).
    { intros s2 Heq Hpre. rewrite Heq in H.
      destruct (IH1 _ H) as (pre & tok' & s1 & -> & Hs & ->).
      exists (tok :: pre), tok', s1. auto. }
    destruct (auto_help_enable_ s && is_help_alias tok) eqn:Hh.
    { rewrite scan_help in H by exact Hh.
      apply bind_inv in H as (? & s2 & H2 & H).
      apply bind_inv in H as (? & s3 & H3 & H).
      destruct (IH1 _ H) as (pre & tok' & s1 & -> & Hs & ->).
      exists (tok :: pre), tok', s1. split; [reflexivity|]. split; [|reflexivity].
      rewrite scan_help by exact Hh.
      rewrite (bind_ok _ _ _ _ _ H2), (bind_ok _ _ _ _ _ H3). exact Hs. }
    destruct (arguments_map_ s !! tok) as [p|] eqn:Hp.
    2:{ apply (Hcons (with_unmatched (unmatchd_args_ s ++ [tok]) s)).
        - apply scan_unmatched; assumption.
        - intros pre s1 <-. apply scan_unmatched; assumption. }
    destruct (cells s !! p) as [c|] eqn:Hc.
    2:{ erewrite scan_dangling in H by eassumption. discriminate. }
    destruct (is_flag c) eqn:Hf.
    { apply (Hcons (write_cell p (mark_found (set_value "true" c)) s)).
      - eapply scan_flag; eassumption.
      - intros pre s1 <-. eapply scan_flag; eassumption. }
    destruct rest as [|v rest'].
    { erewrite scan_value_end in H by eassumption. injection H as <-.
      exists [], tok, s. auto. }
    erewrite scan_value in H by eassumption.
    destruct (IH2 _ _ eq_refl _ H) as (pre & tok' & s1 & -> & Hs & ->).
    exists (tok :: v :: pre), tok', s1. split; [reflexivity|]. split; [|reflexivity].
    erewrite scan_value by eassumption. exact Hs.
Qed.

(** ** Runs on parsers that agree *)

Section Agree.
Variables (pn : bool) (u : list string).
Local Abbreviation Sim := (Sim pn u).

Lemma Sim_ret {A} (x : A) : Sim (ret x) (ret x).
Proof. intros s t H. split; [reflexivity|exact H]. Qed.

Lemma Sim_bind {A B} (m1 m2 : M A) (k1 k2 : A -> M B) :
  Sim m1 m2 -> (forall x, Sim (k1 x) (k2 x)) -> Sim (bind m1 k1) (bind m2 k2).
Proof.
  intros Hm Hk s t H. specialize (Hm s t H). unfold bind.
  destruct (m1 s) as [x s'|], (m2 t) as [y t'|]; simpl in Hm; try done.
  destruct Hm as [<- H']. apply Hk, H'.
Qed.

Lemma Sim_get {B} (k1 k2 : arger_c -> M B) :
  (forall s t, agree pn u s t -> agree_out pn u (k1 s s) (k2 t t)) ->
  Sim (bind get k1) (bind get k2).
Proof. intros Hk s t H. rewrite !bind_get. apply Hk, H. Qed.

Lemma Sim_emit e1 e2 : Sim (emit e1) (emit e2).
Proof. intros s t H. split; [reflexivity|exact H]. Qed.

Lemma Sim_call_error_cb e1 e2 ctx1 ctx2 :
  Sim (call_error_cb e1 ctx1) (call_error_cb e2 ctx2).
Proof.
  intros s t H. rewrite !call_error_cb_eq. split; [reflexivity|].
  unfold after_error_cb. destruct (error_cb_ s), (error_cb_ t); exact H.
Qed.

Lemma Sim_call_post_help_cb : Sim call_post_help_cb call_post_help_cb.
Proof.
  apply Sim_get. intros s t H. pose proof H as (-> & _).
  destruct (post_help_cb_ t); [apply Sim_emit|apply Sim_ret]; exact H.
Qed.

Lemma Sim_load p : Sim (load p) (load p).
Proof.
  apply Sim_get. intros s t H. pose proof H as (_ & _ & _ & _ & -> & _).
  destruct (cells t !! p); [apply Sim_ret, H|exact I].
Qed.

Lemma Sim_store p c : Sim (store p c) (store p c).
Proof.
  apply Sim_get. intros s t H. pose proof H as (? & ? & ? & ? & Hc & ? & ?).
  rewrite Hc. destruct (cells t !! p); [|exact I].
  split; [reflexivity|]. repeat split; simpl; auto.
Qed.

Lemma Sim_map_at tok : Sim (map_at tok) (map_at tok).
Proof.
  apply Sim_get. intros s t H. pose proof H as (_ & _ & _ & -> & _).
  destruct (arguments_map_ t !! tok); [apply Sim_ret, H|exact I].
Qed.

Lemma Sim_conditionally_mark_found tok :
  Sim (conditionally_mark_found tok) (conditionally_mark_found tok).
Proof.
  apply Sim_bind; [apply Sim_map_at|]. intros p.
  apply Sim_bind; [apply Sim_load|]. intros c.
  destruct (req_and_found c); [apply Sim_store|apply Sim_ret].
Qed.

Lemma Sim_store_value {B} tok v (k1 k2 : M B) :
  Sim k1 k2 ->
  Sim (p <- map_at tok ;; c <- load p ;; store p (set_value v c) ;;;
       conditionally_mark_found tok ;;; k1)
      (p <- map_at tok ;; c <- load p ;; store p (set_value v c) ;;;
       conditionally_mark_found tok ;;; k2).
Proof.
  intros Hk.
  apply Sim_bind; [apply Sim_map_at|]. intros p.
  apply Sim_bind; [apply Sim_load|]. intros c.
  apply Sim_bind; [apply Sim_store|]. intros _.
  apply Sim_bind; [apply Sim_conditionally_mark_found|]. intros _. exact Hk.
Qed.

Lemma Sim_handle_flag tok : Sim (handle_flag tok) (handle_flag tok).
Proof. apply Sim_store_value, Sim_ret. Qed.

Lemma Sim_help_entries defs : Sim (help_entries defs) (help_entries defs).
Proof.
  induction defs as [|d defs IH]; simpl; [apply Sim_ret|].
  apply Sim_bind; [apply Sim_load|]. intros c.
  apply Sim_bind; [exact IH|]. intros rest. apply Sim_ret.
Qed.

Lemma Sim_print_help : Sim print_help print_help.
Proof.
  apply Sim_get. intros s t H. pose proof H as (_ & _ & -> & _).
  refine (Sim_bind _ _ _ _ (Sim_help_entries _) _ s t H). intros body.
  apply Sim_bind; [apply Sim_emit|]. intros _. apply Sim_call_post_help_cb.
Qed.

Lemma Sim_push tok :
  Sim (modify (fun s => with_unmatched (unmatchd_args_ s ++ [tok]) s))
      (modify (fun s => with_unmatched (unmatchd_args_ s ++ [tok]) s)).
Proof.
  intros s t (? & ? & ? & ? & ? & Hu & ?). split; [reflexivity|].
  repeat split; simpl; auto. rewrite Hu, app_assoc. reflexivity.
Qed.

Lemma Sim_scan toks : Sim (scan toks) (scan toks).
Proof.
  induction toks as [|tok rest IH1 IH2] using cursor_ind; [apply Sim_ret|].
  simpl. apply Sim_get. intros s t H.
  pose proof H as (_ & -> & _ & -> & _).
  destruct (auto_help_enable_ t && is_help_alias tok).
  { revert s t H. apply Sim_bind; [apply Sim_print_help|]. intros _.
    apply Sim_bind; [apply Sim_call_post_help_cb|]. intros _. exact IH1. }
  destruct (arguments_map_ t !! tok) as [p|].
  2:{ revert s t H. apply Sim_bind; [apply Sim_push|]. intros _. exact IH1. }
  revert s t H. apply Sim_bind; [apply Sim_load|]. intros c.
  destruct (is_flag c).
  { apply Sim_bind; [apply Sim_handle_flag|]. intros _. exact IH1. }
  destruct rest as [|v rest'].
  { apply Sim_bind; [apply Sim_call_error_cb|]. intros _. apply Sim_ret. }
  apply Sim_store_value. eapply IH2. reflexivity.
Qed.

Lemma Sim_check_required defs : Sim (check_required defs) (check_required defs).
Proof.
  induction defs as [|d defs IH]; simpl; [apply Sim_ret|].
  apply Sim_bind; [apply Sim_load|]. intros c.
  destruct (req_and_found c) as [[|]|]; try exact IH.
  apply Sim_bind; [apply Sim_call_error_cb|]. intros _. apply Sim_ret.
Qed.

Lemma Sim_parse_rest toks : Sim (parse_rest toks) (parse_rest toks).
Proof.
  apply Sim_bind; [apply Sim_scan|]. intros [|]; [|apply Sim_ret].
  apply Sim_get. intros s t H. pose proof H as (_ & _ & -> & _).
  apply Sim_check_required, H.
Qed.

Lemma Sim_parse argv : Sim (parse argv) (parse argv).
Proof.
  intros s t H. destruct argv as [|prog rest]; [exact I|].
  rewrite !parse_start by done. apply Sim_parse_rest.
  destruct H as (? & ? & ? & ? & ? & ? & ?). repeat split; simpl; auto.
Qed.

Lemma Sim_add_arg arg desc dv required fl :
  Sim (add_arg arg desc dv required fl) (add_arg arg desc dv required fl).
Proof.
  apply Sim_get. intros s t H. pose proof H as (_ & _ & _ & -> & _).
  destruct (List.find _ arg).
  { revert s t H. apply Sim_bind; [apply Sim_call_error_cb|]. intros _.
    apply Sim_ret. }
  unfold new_argument_s. rewrite !bind_assoc, !bind_get, !bind_assoc,
    !bind_modify, !bind_ret_l, !bind_modify.
  split; [reflexivity|].
  destruct H as (? & ? & Hd & Hm & Hc & ? & ?).
  repeat split; simpl; auto; rewrite ?Hd, ?Hm, ?Hc; reflexivity.
Qed.
End Agree.

(** ** What stays put *)

Lemma stable_refl s : stable s s.
Proof. repeat split. Qed.

Lemma stable_trans s1 s2 s3 : stable s1 s2 -> stable s2 s3 -> stable s1 s3.
Proof.
  intros (?&?&?&?&?&?&?) (?&?&?&?&?&?&?). repeat split; congruence.
Qed.

Lemma stable_write_cell p c s : stable s (write_cell p c s).
Proof. repeat split. simpl. apply length_insert. Qed.

Lemma stable_after_error_cb e ctx s : stable s (after_error_cb e ctx s).
Proof. unfold after_error_cb. destruct (error_cb_ s); repeat split. Qed.

Lemma stable_after_post_help_cb s : stable s (after_post_help_cb s).
Proof. unfold after_post_help_cb. destruct (post_help_cb_ s); repeat split. Qed.

Lemma wf_stable s s' : wf s -> stable s s' -> wf s'.
Proof.
  intros [Hm Hd] (_&_&_&Ed&Em&_&El). split.
  - intros k p. rewrite Em, El. apply Hm.
  - rewrite Ed, El. exact Hd.
Qed.

Lemma Stable_ret {A} (x : A) : Stable (ret x).
Proof. intros s y s' [= _ <-]. apply stable_refl. Qed.

Lemma Stable_bind {A B} (m : M A) (k : A -> M B) :
  Stable m -> (forall x, Stable (k x)) -> Stable (bind m k).
Proof.
  intros Hm Hk s y s' H. apply bind_inv in H as (x & s1 & H1 & H2).
  eapply stable_trans; [eapply Hm|eapply Hk]; eassumption.
Qed.

Lemma Stable_get_bind {B} (k : arger_c -> M B) :
  (forall s, Stable (k s)) -> Stable (bind get k).
Proof. intros Hk s y s' H. rewrite bind_get in H. eapply Hk, H. Qed.

Lemma call_post_help_cb_eq s : call_post_help_cb s = Ok tt (after_post_help_cb s).
Proof.
  unfold call_post_help_cb, after_post_help_cb, emit. rewrite bind_get.
  destruct (post_help_cb_ s); reflexivity.
Qed.

Lemma help_entries_eq defs s :
  Forall (fun d => (allocated_arg d < length (cells s))%nat) defs ->
  help_entries defs s = Ok (help_body (cells s) defs) s.
Proof.
  induction 1 as [|d defs Hd _ IH]; [reflexivity|]. simpl.
  destruct (lookup_lt_is_Some_2 _ _ Hd) as [c Hc].
  unfold load. rewrite bind_assoc, bind_get, Hc, bind_ret_l.
  rewrite (bind_ok _ _ _ _ _ IH). reflexivity.
Qed.

Lemma print_help_eq s :
  wf s ->
  print_help s
  = Ok tt (after_post_help_cb (with_effects (effects s ++ [Stdout (help_text s)]) s)).
Proof.
  intros [_ Hd]. unfold print_help. rewrite bind_get.
  rewrite (bind_ok _ _ _ _ _ (help_entries_eq _ _ Hd)).
  unfold emit. rewrite bind_modify. apply call_post_help_cb_eq.
Qed.

Lemma Stable_load p : Stable (load p).
Proof.
  apply Stable_get_bind. intros s. destruct (cells s !! p).
  - apply Stable_ret.
  - intros ? ? ? [=].
Qed.

Lemma Stable_help_entries defs : Stable (help_entries defs).
Proof.
  induction defs as [|d defs IH]; simpl; [apply Stable_ret|].
  apply Stable_bind; [apply Stable_load|]. intros c.
  apply Stable_bind; [exact IH|]. intros rest. apply Stable_ret.
Qed.

Lemma Stable_call_error_cb e ctx : Stable (call_error_cb e ctx).
Proof.
  intros s x s'. rewrite call_error_cb_eq. intros [= _ <-].
  apply stable_after_error_cb.
Qed.

Lemma Stable_call_post_help_cb : Stable call_post_help_cb.
Proof.
  intros s x s'. rewrite call_post_help_cb_eq. intros [= _ <-].
  apply stable_after_post_help_cb.
Qed.

Lemma Stable_print_help : Stable print_help.
Proof.
  apply Stable_get_bind. intros s.
  apply Stable_bind; [apply Stable_help_entries|]. intros body.
  apply Stable_bind; [|intros _; apply Stable_call_post_help_cb].
  intros s1 x s2 [= _ <-]. repeat split.
Qed.

Lemma Stable_scan toks : Stable (scan toks).
Proof.
  induction toks as [|tok rest IH1 IH2] using cursor_ind; [apply Stable_ret|].
  intros s b s' H.
  destruct (auto_help_enable_ s && is_help_alias tok) eqn:Hh.
  { rewrite scan_help in H by exact Hh. revert s b s' H Hh.
    intros s b s' H _. revert s b s' H.
    apply Stable_bind; [apply Stable_print_help|]. intros _.
    apply Stable_bind; [apply Stable_call_post_help_cb|]. intros _. exact IH1. }
  destruct (arguments_map_ s !! tok) as [p|] eqn:Hp.
  2:{ rewrite scan_unmatched in H by assumption.
      eapply stable_trans; [|eapply IH1, H]. repeat split. }
  destruct (cells s !! p) as [c|] eqn:Hc.
  2:{ erewrite scan_dangling in H by eassumption. discriminate. }
  destruct (is_flag c) eqn:Hf.
  { erewrite scan_flag in H by eassumption.
    eapply stable_trans; [apply stable_write_cell|eapply IH1, H]. }
  destruct rest as [|v rest'].
  { erewrite scan_value_end in H by eassumption. injection H as _ <-.
    apply stable_after_error_cb. }
  erewrite scan_value in H by eassumption.
  eapply stable_trans; [apply stable_write_cell|eapply IH2; [reflexivity|exact H]].
Qed.

Lemma Stable_check_required defs : Stable (check_required defs).
Proof.
  induction defs as [|d defs IH]; simpl; [apply Stable_ret|].
  apply Stable_bind; [apply Stable_load|]. intros c.
  destruct (req_and_found c) as [[|]|]; try exact IH.
  apply Stable_bind; [apply Stable_call_error_cb|]. intros _. apply Stable_ret.
Qed.

Lemma Stable_parse_rest toks : Stable (parse_rest toks).
Proof.
  apply Stable_bind; [apply Stable_scan|]. intros [|]; [|apply Stable_ret].
  apply Stable_get_bind. intros s. apply Stable_check_required.
Qed.

Lemma parse_stable argv s b s' :
  parse argv s = Ok b s' -> stable (start argv s) s'.
Proof.
  destruct argv as [|prog rest]; [discriminate|].
  rewrite parse_start by done. apply Stable_parse_rest.
Qed.

(** ** The parser never follows a dangling pointer *)

Lemma wf_arger_new ph : wf (arger_new ph).
Proof.
  split; [|constructor]. intros k p. simpl. rewrite lookup_empty. discriminate.
Qed.

Lemma wf_start argv s : wf s -> wf (start argv s).
Proof. intros H. exact H. Qed.

Lemma scan_total toks s : wf s -> exists b s', scan toks s = Ok b s'.
Proof.
  revert s. induction toks as [|tok rest IH1 IH2] using cursor_ind; intros s Hwf.
  - eexists _, _. reflexivity.
  - destruct (auto_help_enable_ s && is_help_alias tok) eqn:Hh.
    { rewrite scan_help by exact Hh.
      erewrite bind_ok by (apply print_help_eq, Hwf).
      erewrite bind_ok by apply call_post_help_cb_eq.
      apply IH1. eapply wf_stable; [exact Hwf|].
      eapply stable_trans; [|apply stable_after_post_help_cb].
      eapply stable_trans; [|apply stable_after_post_help_cb]. repeat split. }
    destruct (arguments_map_ s !! tok) as [p|] eqn:Hp.
    2:{ rewrite scan_unmatched by assumption. apply IH1.
        eapply wf_stable; [exact Hwf|repeat split]. }
    destruct (lookup_lt_is_Some_2 (cells s) p) as [c Hc].
    { eapply (proj1 Hwf), Hp. }
    destruct (is_flag c) eqn:Hf.
    { erewrite scan_flag by eassumption. apply IH1.
      eapply wf_stable; [exact Hwf|apply stable_write_cell]. }
    destruct rest as [|v rest'].
    { erewrite scan_value_end by eassumption. eauto. }
    erewrite scan_value by eassumption. eapply IH2; [reflexivity|].
    eapply wf_stable; [exact Hwf|apply stable_write_cell].
Qed.

(** A help token on a well-formed parser: the text, the callback twice,
    and the scan goes on. *)
Lemma scan_help_step tok rest s :
  wf s ->
  auto_help_enable_ s && is_help_alias tok = true ->
  scan (tok :: rest) s
  = scan rest
      (after_post_help_cb
         (after_post_help_cb
            (with_effects (effects s ++ [Stdout (help_text s)]) s))).
Proof.
  intros Hwf Hh. rewrite scan_help by exact Hh.
  erewrite bind_ok by (apply print_help_eq, Hwf).
  erewrite bind_ok by apply call_post_help_cb_eq. reflexivity.
Qed.

Lemma check_required_total defs s :
  Forall (fun d => (allocated_arg d < length (cells s))%nat) defs ->
  exists b s', check_required defs s = Ok b s'.
Proof.
  induction 1 as [|d defs Hd _ IH]; simpl; [eexists _, _; reflexivity|].
  destruct (lookup_lt_is_Some_2 _ _ Hd) as [c Hc].
  unfold load. rewrite bind_assoc, bind_get, Hc, bind_ret_l.
  destruct (req_and_found c) as [[|]|]; try exact IH.
  rewrite (bind_ok _ _ _ _ _ (call_error_cb_eq _ _ _)). eexists _, _. reflexivity.
Qed.

(** On a well-formed parser and a non-empty token list [parse] returns,
    and the parser stays well formed. *)
Lemma parse_total argv s :
  wf s -> argv <> [] -> exists b s', parse argv s = Ok b s' /\ wf s'.
Proof.
  intros Hwf Hne.
  assert (H : exists b s', parse argv s = Ok b s').
  { rewrite parse_start by exact Hne. unfold parse_rest.
    destruct (scan_total argv (start argv s) Hwf) as (b & s1 & Hs).
    rewrite (bind_ok _ _ _ _ _ Hs). destruct b; [|eauto].
    rewrite bind_get. apply check_required_total.
    apply (wf_stable _ s1 (wf_start argv s Hwf) (Stable_scan _ _ _ _ Hs)). }
  destruct H as (b & s' & H). exists b, s'. split; [exact H|].
  eapply wf_stable; [apply (wf_start argv), Hwf|eapply parse_stable, H].
Qed.

(** ** Registration *)

Lemma foldl_insert_lookup (arg : list string) (p : nat) (m : gmap string nat) k :
  foldl (fun m a => <[a := p]> m) m arg !! k
  = if decide (k ∈ arg) then Some p else m !! k.
Proof.
  revert m. induction arg as [|a arg IH]; intros m; simpl.
  - destruct (decide (k ∈ [])) as [H|_]; [|reflexivity]. inversion H.
  - rewrite IH. destruct (decide (k ∈ arg)) as [Hin|Hin].
    + rewrite decide_True by (right; exact Hin). reflexivity.
    + destruct (decide (k = a)) as [->|Hne].
      * rewrite decide_True by left. apply lookup_insert_eq.
      * rewrite decide_False by (intros H; inversion H; subst; contradiction).
        apply lookup_insert_ne. congruence.
Qed.

Lemma add_arg_duplicate arg desc dv required fl s a :
  List.find (fun a => bool_decide (is_Some (arguments_map_ s !! a))) arg = Some a ->
  add_arg arg desc dv required fl s
  = Ok false (after_error_cb DUPLICATE_DEFINITION a s).
Proof.
  intros H. unfold add_arg. rewrite bind_get, H.
  rewrite (bind_ok _ _ _ _ _ (call_error_cb_eq _ _ _)). reflexivity.
Qed.

Lemma add_arg_fresh arg desc dv required fl s :
  List.find (fun a => bool_decide (is_Some (arguments_map_ s !! a))) arg = None ->
  add_arg arg desc dv required fl s
  = Ok true
      (with_registry
         (argument_defs_ s ++
            [ {| args := arg; description := desc;
                 default_value := to_string dv;
                 allocated_arg := length (cells s) |} ])
         (foldl (fun m a => <[a := length (cells s)]> m) (arguments_map_ s) arg)
         (cells s ++
            [ {| req_and_found := if required then Some false else None;
                 value := to_string dv; is_flag := fl |} ])
         s).
Proof. intros H. unfold add_arg. rewrite bind_get, H. reflexivity. Qed.

Lemma add_arg_wf arg desc dv required fl s b s' :
  wf s -> add_arg arg desc dv required fl s = Ok b s' -> wf s'.
Proof.
  intros Hwf H.
  destruct (List.find (fun a => bool_decide (is_Some (arguments_map_ s !! a))) arg)
    as [a|] eqn:Hfind.
  - rewrite (add_arg_duplicate _ _ _ _ _ _ _ Hfind) in H. injection H as _ <-.
    eapply wf_stable; [exact Hwf|apply stable_after_error_cb].
  - rewrite (add_arg_fresh _ _ _ _ _ _ Hfind) in H. injection H as _ <-.
    destruct Hwf as [Hm Hd]. split; simpl.
    + intros k p. rewrite foldl_insert_lookup, length_app. simpl.
      destruct (decide (k ∈ arg)).
      * intros [= <-]. lia.
      * intros Hk. apply Hm in Hk. lia.
    + rewrite Forall_app. split.
      * eapply Forall_impl; [exact Hd|]. intros d. simpl.
        rewrite length_app. simpl. lia.
      * constructor; [|constructor]. simpl. rewrite length_app. simpl. lia.
Qed.

(** C5. Registration checks every alias before it inserts any: when one
    alias of the set is already in the alias index the call returns
    [false], the error callback, if there is one, is called once with
    [DUPLICATE_DEFINITION] and an alias of the set that is in the index,
    and the definitions, the index and the cells are left as they were;
    when none is, the call returns [true], allocates one cell, appends the
    definition and maps every alias of the set to that cell, leaving the
    other keys of the index alone. *)
Theorem add_arg_atomic arg desc dv required fl s :
  (Exists (fun a => is_Some (arguments_map_ s !! a)) arg ->
   exists a s',
     a ∈ arg /\ is_Some (arguments_map_ s !! a) /\
     add_arg arg desc dv required fl s = Ok false s' /\
     s' = after_error_cb DUPLICATE_DEFINITION a s /\
     argument_defs_ s' = argument_defs_ s /\
     arguments_map_ s' = arguments_map_ s /\
     cells s' = cells s) /\
  (Forall (fun a => arguments_map_ s !! a = None) arg ->
   exists s',
     add_arg arg desc dv required fl s = Ok true s' /\
     cells s' = cells s ++
       [ {| req_and_found := if required then Some false else None;
            value := to_string dv; is_flag := fl |} ] /\
     argument_defs_ s' = argument_defs_ s ++
       [ {| args := arg; description := desc; default_value := to_string dv;
            allocated_arg := length (cells s) |} ] /\
     (forall a, a ∈ arg -> arguments_map_ s' !! a = Some (length (cells s))) /\
     (forall k, k ∉ arg -> arguments_map_ s' !! k = arguments_map_ s !! k) /\
     effects s' = effects s).
Proof.
  destruct (List.find (fun a => bool_decide (is_Some (arguments_map_ s !! a))) arg)
    as [a|] eqn:Hfind.
  - apply find_some in Hfind as Hin. destruct Hin as [Hin Ha].
    apply bool_decide_eq_true in Ha. split.
    + intros _. exists a, (after_error_cb DUPLICATE_DEFINITION a s).
      split; [apply list_elem_of_In, Hin|]. split; [exact Ha|].
      split; [apply add_arg_duplicate, Hfind|]. split; [reflexivity|].
      unfold after_error_cb. destruct (error_cb_ s); auto.
    + intros Hall. rewrite Forall_forall in Hall.
      rewrite (Hall a) in Ha by apply list_elem_of_In, Hin.
      destruct Ha as [? [=]].
  - split.
    + intros Hex. apply Exists_exists in Hex as (a & Hin & Ha).
      apply list_elem_of_In in Hin.
      pose proof (find_none _ _ Hfind a Hin) as Hf.
      apply bool_decide_eq_false in Hf. contradiction.
    + intros _. eexists. split; [apply add_arg_fresh, Hfind|]. simpl.
      split; [reflexivity|]. split; [reflexivity|].
      split; [|split; [|reflexivity]].
      * intros a Ha. rewrite foldl_insert_lookup, decide_True by exact Ha.
        reflexivity.
      * intros k Hk. rewrite foldl_insert_lookup, decide_False by exact Hk.
        reflexivity.
Qed.

(** ** The check of the required definitions *)

Lemma not_missing_cell s d c :
  cells s !! allocated_arg d = Some c -> ~ missing s d ->
  req_and_found c <> Some false.
Proof. intros Hc Hn Hr. apply Hn. exists c. auto. Qed.

Lemma check_required_first pre d post s :
  Forall (fun d' => (allocated_arg d' < length (cells s))%nat) pre ->
  Forall (fun d' => ~ missing s d') pre ->
  missing s d ->
  check_required (pre ++ d :: post) s
  = Ok false (after_error_cb MISSING_REQUIRED_ARGUMENT (concat_aliases (args d)) s).
Proof.
  intros Hv Hn (c & Hc & Hr). induction pre as [|d' pre IH]; simpl.
  - unfold load. rewrite bind_assoc, bind_get, Hc, bind_ret_l, Hr.
    rewrite (bind_ok _ _ _ _ _ (call_error_cb_eq _ _ _)). reflexivity.
  - inversion Hv as [|? ? Hd' Hv']; inversion Hn as [|? ? Hn' Hn'']; subst.
    destruct (lookup_lt_is_Some_2 _ _ Hd') as [c' Hc'].
    unfold load. rewrite bind_assoc, bind_get, Hc', bind_ret_l.
    pose proof (not_missing_cell _ _ _ Hc' Hn') as Hne.
    destruct (req_and_found c') as [[|]|]; auto. congruence.
Qed.

Lemma check_required_none defs s :
  Forall (fun d => (allocated_arg d < length (cells s))%nat) defs ->
  Forall (fun d => ~ missing s d) defs ->
  check_required defs s = Ok true s.
Proof.
  intros Hv Hn. induction defs as [|d defs IH]; simpl; [reflexivity|].
  inversion Hv as [|? ? Hd Hv']; inversion Hn as [|? ? Hn' Hn'']; subst.
  destruct (lookup_lt_is_Some_2 _ _ Hd) as [c Hc].
  unfold load. rewrite bind_assoc, bind_get, Hc, bind_ret_l.
  pose proof (not_missing_cell _ _ _ Hc Hn') as Hne.
  destruct (req_and_found c) as [[|]|]; auto. congruence.
Qed.

Lemma check_required_false defs s s' :
  check_required defs s = Ok false s' ->
  exists d, d ∈ defs /\ missing s d /\
    s' = after_error_cb MISSING_REQUIRED_ARGUMENT (concat_aliases (args d)) s.
Proof.
  induction defs as [|d defs IH]; simpl; [discriminate|].
  unfold load. rewrite bind_assoc, bind_get.
  destruct (cells s !! allocated_arg d) as [c|] eqn:Hc; [|discriminate].
  rewrite bind_ret_l.
  assert (Hrec : check_required defs s = Ok false s' ->
    exists d0, d0 ∈ d :: defs /\ missing s d0 /\
      s' = after_error_cb MISSING_REQUIRED_ARGUMENT (concat_aliases (args d0)) s).
  { intros H. destruct (IH H) as (d0 & Hin & Hd0). exists d0.
    split; [right; exact Hin|exact Hd0]. }
  destruct (req_and_found c) as [[|]|] eqn:Hr; auto.
  rewrite (bind_ok _ _ _ _ _ (call_error_cb_eq _ _ _)). intros [= <-].
  exists d. split; [left|]. split; [exists c; auto|reflexivity].
Qed.

(** C4. When the scan of the tokens has come to its end, [parse] walks
    the definitions in registration order.  At the first one whose
    [req_and_found] is set and still [false] it calls the error callback,
    if there is one, once with [MISSING_REQUIRED_ARGUMENT] and the aliases
    of that definition, each followed by a blank, and returns [false]
    without looking at the definitions after it; when there is no such
    definition it returns [true]. *)
Theorem parse_reports_first_missing argv s s1 :
  wf s -> argv <> [] ->
  parse_loop (length argv) argv 0 (start argv s) = Ok true s1 ->
  (forall pre d post,
      argument_defs_ s1 = pre ++ d :: post ->
      Forall (fun d' => ~ missing s1 d') pre ->
      missing s1 d ->
      parse argv s
      = Ok false (after_error_cb MISSING_REQUIRED_ARGUMENT
                    (concat_aliases (args d)) s1)) /\
  (Forall (fun d => ~ missing s1 d) (argument_defs_ s1) ->
   parse argv s = Ok true s1).
Proof.
  intros Hwf Hne Hloop.
  rewrite parse_loop_scan in Hloop by lia. rewrite drop_0 in Hloop.
  assert (Hwf1 : wf s1).
  { eapply wf_stable; [apply (wf_start argv), Hwf|].
    eapply Stable_scan, Hloop. }
  destruct Hwf1 as [_ Hd].
  assert (Hp : parse argv s = check_required (argument_defs_ s1) s1).
  { rewrite parse_start by exact Hne. unfold parse_rest.
    rewrite (bind_ok _ _ _ _ _ Hloop). reflexivity. }
  rewrite Hp. split.
  - intros pre d post Heq Hpre Hmiss. rewrite Heq in *.
    apply check_required_first; [|exact Hpre|exact Hmiss].
    apply Forall_app in Hd. tauto.
  - intros Hall. apply check_required_none; assumption.
Qed.

(** C6. When the scan stands before a token that is the alias of a
    value-bearing option: if it is the last token, [parse] calls the error
    callback, if there is one, with [EXPECTED_VALUE] and that token and
    returns [false] at once, without the check of the required
    definitions; otherwise the next token, whatever it is, becomes the
    stored value, the definition is marked found when it is required, and
    the scan goes on behind the value. *)
Theorem value_option_takes_next_token argv pre tok rest s s1 p c :
  argv = pre ++ tok :: rest ->
  scan pre (start argv s) = Ok true s1 ->
  auto_help_enable_ s1 && is_help_alias tok = false ->
  arguments_map_ s1 !! tok = Some p ->
  cells s1 !! p = Some c ->
  is_flag c = false ->
  match rest with
  | [] => parse argv s = Ok false (after_error_cb EXPECTED_VALUE tok s1)
  | v :: rest' =>
      parse argv s
      = parse_rest rest' (write_cell p (mark_found (set_value v c)) s1)
  end.
Proof.
  intros Hargv Hpre Hh Hp Hc Hf.
  assert (Hne : argv <> []) by (subst argv; destruct pre; discriminate).
  rewrite parse_start by exact Hne. remember (start argv s) as s0.
  rewrite Hargv. rewrite (parse_rest_app _ _ _ _ Hpre). unfold parse_rest.
  destruct rest as [|v rest'].
  - erewrite bind_ok by (eapply scan_value_end; eassumption). reflexivity.
  - unfold bind. erewrite scan_value by eassumption. reflexivity.
Qed.

Lemma get_arg_reads {T} `{Extract T} (val : T) a s t :
  arguments_map_ s = arguments_map_ t -> cells s = cells t ->
  fst <$> run (get_arg val a) s = fst <$> run (get_arg val a) t.
Proof.
  intros Em Ec. unfold run, get_arg. rewrite !bind_get, Em.
  destruct (arguments_map_ t !! a) as [p|]; [|reflexivity].
  unfold load. rewrite !bind_assoc, !bind_get, Ec.
  destruct (cells t !! p); reflexivity.
Qed.

Lemma after_error_cb_keeps e ctx s1 name :
  get_program_name s1 = name ->
  cells (after_error_cb e ctx s1) = cells s1 /\
  arguments_map_ (after_error_cb e ctx s1) = arguments_map_ s1 /\
  get_unmatched_args (after_error_cb e ctx s1) = get_unmatched_args s1 /\
  get_program_name (after_error_cb e ctx s1) = name /\
  (forall T (E : Extract T) (val : T) a,
      fst <$> run (get_arg val a) (after_error_cb e ctx s1)
      = fst <$> run (get_arg val a) s1).
Proof.
  intros <-.
  assert (H : cells (after_error_cb e ctx s1) = cells s1 /\
              arguments_map_ (after_error_cb e ctx s1) = arguments_map_ s1 /\
              get_unmatched_args (after_error_cb e ctx s1) = get_unmatched_args s1 /\
              get_program_name (after_error_cb e ctx s1) = get_program_name s1).
  { unfold after_error_cb. destruct (error_cb_ s1); auto. }
  destruct H as (Ec & Em & Eu & En). repeat (split; [assumption|]).
  intros T E val a. apply get_arg_reads; assumption.
Qed.

(** C10. A [parse] that returns [false] undoes nothing.  It stopped
    either at the last token, a value-bearing option without a value, or
    after the whole scan at a required definition that was not seen; the
    parser is then in the state the scan had reached, with at most the
    error callback's event added: cells, alias index, unmatched tokens and
    program name are those of the scan, and [get_arg] reads what the scan
    stored. *)
Theorem parse_failure_keeps_state argv s s' :
  parse argv s = Ok false s' ->
  exists pre rest s1,
    argv = pre ++ rest /\
    scan pre (start argv s) = Ok true s1 /\
    ((exists tok, rest = [tok] /\
        s' = after_error_cb EXPECTED_VALUE tok s1) \/
     (rest = [] /\ exists d, d ∈ argument_defs_ s1 /\ missing s1 d /\
        s' = after_error_cb MISSING_REQUIRED_ARGUMENT
               (concat_aliases (args d)) s1)) /\
    cells s' = cells s1 /\
    arguments_map_ s' = arguments_map_ s1 /\
    get_unmatched_args s' = get_unmatched_args s1 /\
    get_program_name s' = List.hd "" argv /\
    (forall T (E : Extract T) (val : T) a,
        fst <$> run (get_arg val a) s' = fst <$> run (get_arg val a) s1).
Proof.
  intros H.
  assert (Hne : argv <> []) by (destruct argv; [discriminate|done]).
  rewrite parse_start in H by exact Hne.
  assert (Hname : forall pre b s1,
    scan pre (start argv s) = Ok b s1 -> get_program_name s1 = List.hd "" argv).
  { intros pre b s1 Hs. apply Stable_scan in Hs as (_&_&_&_&_&Hn&_). exact Hn. }
  apply bind_inv in H as (ok & s1 & Hs & H). destruct ok.
  - rewrite bind_get in H. apply check_required_false in H as (d & Hin & Hm & ->).
    exists argv, [], s1. split; [symmetry; apply app_nil_r|]. split; [exact Hs|].
    split; [right; eauto|]. eapply after_error_cb_keeps, Hname, Hs.
  - injection H as <-.
    apply scan_false in Hs as (pre & tok & s2 & Hargv & Hs & ->).
    exists pre, [tok], s2. split; [exact Hargv|]. split; [exact Hs|].
    split; [left; eauto|]. eapply after_error_cb_keeps, Hname, Hs.
Qed.

(** ** Unmatched tokens over several calls *)




(** ** Aliases of one definition *)

Lemma agree_out_bind pn u {A B} (m1 m2 : M A) (k1 k2 : A -> M B) s t :
  agree_out pn u (m1 s) (m2 t) ->
  (forall x, Sim pn u (k1 x) (k2 x)) ->
  agree_out pn u (bind m1 k1 s) (bind m2 k2 t).
Proof.
  intros Hm Hk. unfold bind.
  destruct (m1 s) as [x s'|], (m2 t) as [y t'|]; simpl in Hm; try done.
  destruct Hm as [<- H']. apply Hk, H'.
Qed.

Lemma agree_write_cell pn u p c s t :
  agree pn u s t -> agree pn u (write_cell p c s) (write_cell p c t).
Proof.
  intros (?&?&?&?&Hc&?&?). repeat split; simpl; auto. rewrite Hc. reflexivity.
Qed.

Lemma agree_refl pn s : agree pn [] s s.
Proof. repeat split. Qed.

Lemma scan_alias_swap pn u x y p rest s t :
  agree pn u s t ->
  arguments_map_ s !! x = Some p ->
  arguments_map_ s !! y = Some p ->
  auto_help_enable_ s && is_help_alias x = false ->
  auto_help_enable_ s && is_help_alias y = false ->
  agree_out pn u (scan (x :: rest) s) (scan (y :: rest) t).
Proof.
  intros H Hx Hy Hhx Hhy. pose proof H as (_ & Eh & _ & Em & Ec & _).
  rewrite Eh in Hhy. rewrite Em in Hy.
  destruct (cells s !! p) as [c|] eqn:Hc.
  2:{ rewrite (scan_dangling x s Hhx rest p Hx Hc).
      rewrite Ec in Hc. rewrite (scan_dangling y t Hhy rest p Hy Hc). exact I. }
  assert (Hc' : cells t !! p = Some c) by congruence.
  destruct (is_flag c) eqn:Hf.
  { erewrite (scan_flag x s), (scan_flag y t) by eassumption.
    apply Sim_scan, agree_write_cell, H. }
  destruct rest as [|v rest'].
  { erewrite (scan_value_end x s), (scan_value_end y t) by eassumption.
    split; [reflexivity|]. unfold after_error_cb.
    destruct (error_cb_ s), (error_cb_ t); exact H. }
  erewrite (scan_value x s), (scan_value y t) by eassumption.
  apply Sim_scan, agree_write_cell, H.
Qed.

Lemma parse_rest_alias_swap pn u x y p rest s t :
  agree pn u s t ->
  arguments_map_ s !! x = Some p ->
  arguments_map_ s !! y = Some p ->
  auto_help_enable_ s && is_help_alias x = false ->
  auto_help_enable_ s && is_help_alias y = false ->
  agree_out pn u (parse_rest (x :: rest) s) (parse_rest (y :: rest) t).
Proof.
  intros H Hx Hy Hhx Hhy. unfold parse_rest.
  apply agree_out_bind; [eapply scan_alias_swap; eassumption|].
  intros [|]; [|apply Sim_ret].
  apply Sim_get. intros s' t' H'. pose proof H' as (_ & _ & -> & _).
  apply Sim_check_required, H'.
Qed.

Lemma get_arg_same_cell {T} `{Extract T} (val : T) x y p s :
  arguments_map_ s !! x = Some p ->
  arguments_map_ s !! y = Some p ->
  get_arg val x s = get_arg val y s.
Proof. intros Hx Hy. unfold get_arg. rewrite !bind_get, Hx, Hy. reflexivity. Qed.

(** C8. Two aliases of one definition are interchangeable.  When the
    scan stands before one of them, putting the other in its place changes
    neither the result of [parse] nor any cell, stored value or
    found-state, nor the unmatched tokens; and after either parse
    [get_arg] answers the same for both aliases. *)
Theorem aliases_interchangeable s x y p pre post s1 :
  arguments_map_ s !! x = Some p ->
  arguments_map_ s !! y = Some p ->
  auto_help_enable_ s && is_help_alias x = false ->
  auto_help_enable_ s && is_help_alias y = false ->
  scan pre (start (pre ++ x :: post) s) = Ok true s1 ->
  agree_out false [] (parse (pre ++ x :: post) s) (parse (pre ++ y :: post) s) /\
  (forall argv b s', parse argv s = Ok b s' ->
     forall T (E : Extract T) (val : T), get_arg val x s' = get_arg val y s').
Proof.
  intros Hx Hy Hhx Hhy Hpre. split.
  - rewrite !parse_start by (destruct pre; discriminate).
    destruct pre as [|prog pre].
    + simpl app. eapply parse_rest_alias_swap; try eassumption.
      repeat split. discriminate.
    + assert (Hpre' : scan (prog :: pre) (start ((prog :: pre) ++ y :: post) s)
                      = Ok true s1) by exact Hpre.
      rewrite (parse_rest_app _ _ _ _ Hpre), (parse_rest_app _ _ _ _ Hpre').
      apply Stable_scan in Hpre as (_ & _ & Eh & _ & Em & _).
      eapply parse_rest_alias_swap; [apply agree_refl|..];
        rewrite ?Em, ?Eh; eassumption.
  - intros argv b s' Hparse T E val.
    apply parse_stable in Hparse as (_ & _ & _ & _ & Em & _).
    eapply get_arg_same_cell; rewrite Em; eassumption.
Qed.

(** ** The error callback *)

Lemma Sim_do_calls pn u cs : Sim pn u (do_calls cs) (do_calls cs).
Proof.
  induction cs as [|c cs IH]; simpl; [apply Sim_ret|].
  apply Sim_bind.
  - destruct c; [apply Sim_add_arg|apply Sim_add_arg|apply Sim_parse].
  - intros b. apply Sim_bind; [exact IH|]. intros bs. apply Sim_ret.
Qed.

(** C9. The error callback decides nothing.  Whatever calls of
    [add_argument], [add_flag] and [parse] a client makes, with and
    without an error callback every call returns the same [bool] and the
    parser ends with the same cells, alias index, definitions, unmatched
    tokens and program name. *)
Theorem error_cb_decides_nothing cs s cb1 cb2 :
  agree_out true []
    (do_calls cs (with_error_cb cb1 s)) (do_calls cs (with_error_cb cb2 s)).
Proof. apply Sim_do_calls. repeat split. Qed.

(** ** The test programs and the examples of the specification *)

Example string_set_order : string_set ["-b"; "--bool"; "-b"] = ["--bool"; "-b"].
Proof. reflexivity. Qed.

Lemma wf_help_parser : wf help_parser.
Proof.
  apply (add_arg_wf (string_set ["-b"; "--bool"]) "A bool" (ArgBool false)
           false true (with_error_cb true (arger_new true)) true).
  - apply (wf_arger_new true).
  - reflexivity.
Qed.

Lemma wf_required_parser : wf required_parser.
Proof.
  apply (add_arg_wf (string_set ["-b"; "--bool"]) "A bool" (ArgBool true)
           true false (with_error_cb true (arger_new true)) true).
  - apply (wf_arger_new true).
  - reflexivity.
Qed.

Example to_string_values :
  to_string (ArgInt64 (-120)) = "-120" /\ to_string (ArgInt64 0) = "0" /\
  to_string (ArgBool true) = "1" /\ to_string (ArgBool false) = "0" /\
  to_string (ArgString "x y") = "x y".
Proof. repeat split. Qed.

Example extract_string_first_word (val : string) :
  extract val "  hello world" = "hello" /\ extract val "  " = val.
Proof. split; reflexivity. Qed.

Example extract_int64_values (val : Z) :
  extract val " -42abc" = -42 /\ extract val "+7" = 7 /\
  extract val "abc" = 0 /\ extract val "" = val /\
  extract val "99999999999999999999" = LONG_MAX.
Proof. repeat split. Qed.

Lemma extract_bool_true_text (val : bool) : extract val "true" = false.
Proof. reflexivity. Qed.

Lemma extract_bool_one (val : bool) : extract val "1" = true.
Proof. reflexivity. Qed.

(** C1. With the value-bearing option "--name" as the only definition,
    [parse] on "prog --name y extra" returns [true] and [get_arg] gives
    "y", but the unmatched tokens are "prog" and "extra": the loop starts
    at index 0 and the program name is in no alias index. *)
Theorem unmatched_args_hold_program_name (ph ec : bool) :
  fst <$> run (set_error_cb ec ;;;
               add_argument ["--name"] "a name" (ArgString "x") false ;;;
               ok <- parse ["prog"; "--name"; "y"; "extra"] ;;
               v <- get_arg "" "--name" ;;
               s <- get ;;
               ret (ok, v, get_unmatched_args s))
          (arger_new ph)
  = Some (true, Some "y", ["prog"; "extra"]).
Proof. destruct ph, ec; reflexivity. Qed.

(** C2. A flag registered with default [false] reads back as [false]
    when its alias is not among the tokens, and also when it is:
    [handle_flag] stores the text "true", which [get_arg<bool>] cannot
    read, whatever [val] held before.  The flag token is the only token
    consumed: "x" behind it is left as an unmatched token. *)
Theorem flag_reads_back_false (val : bool) :
  fst <$> run (add_flag (string_set ["-b"; "--bool"]) "A bool" false false ;;;
               ok <- parse ["prog"; "x"] ;;
               v <- get_arg val "-b" ;;
               s <- get ;;
               ret (ok, v, value <$> cells s, get_unmatched_args s))
          (arger_new false)
  = Some (true, Some false, ["0"], ["prog"; "x"]) /\
  fst <$> run (add_flag (string_set ["-b"; "--bool"]) "A bool" false false ;;;
               ok <- parse ["prog"; "-b"; "x"] ;;
               v <- get_arg val "-b" ;;
               s <- get ;;
               ret (ok, v, value <$> cells s, get_unmatched_args s))
          (arger_new false)
  = Some (true, Some false, ["true"], ["prog"; "x"]).
Proof. destruct val; split; reflexivity. Qed.

(** C3. On a help token [parse] writes the help text, calls the
    post-help callback twice, once at the end of [print_help] and once in
    the loop, and goes on with the next token. *)
Theorem help_calls_post_help_cb_twice :
  fst <$> run (ok <- parse ["prog"; "-h"; "x"] ;;
               s <- get ;;
               ret (ok, effects s, get_unmatched_args s))
          help_parser
  = Some (true,
          [ Stdout ("Usage: prog [options]" +:+ nl +:+ nl
                    +:+ "Options:" +:+ nl +:+ nl
                    +:+ "--bool -b " +:+ tab +:+ "desc:A bool"
                    +:+ tab +:+ "default:0" +:+ tab +:+ "<optional>"
                    +:+ nl +:+ nl);
            PostHelpCb; PostHelpCb ],
          ["prog"; "x"]).
Proof. reflexivity. Qed.

(** ** Instances *)

Lemma parse_reports_first_missing_witness :
  parse ["prog"] required_parser
  = Ok false (after_error_cb MISSING_REQUIRED_ARGUMENT "--bool -b "
                (after (scan ["prog"]) (start ["prog"] required_parser))).
Proof.
  apply (proj1 (parse_reports_first_missing ["prog"] required_parser
                  (after (scan ["prog"]) (start ["prog"] required_parser))
                  wf_required_parser ltac:(discriminate) eq_refl)
           [] {| args := ["--bool"; "-b"]; description := "A bool";
                 default_value := "1"; allocated_arg := 0 |} []).
  - reflexivity.
  - constructor.
  - exists {| req_and_found := Some false; value := "1"; is_flag := false |}.
    split; reflexivity.
Defined.

Lemma value_option_takes_next_token_witness :
  parse ["prog"; "-b"] required_parser
  = Ok false (after_error_cb EXPECTED_VALUE "-b"
                (after (scan ["prog"]) (start ["prog"; "-b"] required_parser))).
Proof.
  apply (value_option_takes_next_token ["prog"; "-b"] ["prog"] "-b" []
           required_parser
           (after (scan ["prog"]) (start ["prog"; "-b"] required_parser))
           0 {| req_and_found := Some false; value := "1"; is_flag := false |});
    reflexivity.
Defined.


Lemma aliases_interchangeable_witness :
  agree_out false []
    (parse (["prog"] ++ "--bool" :: ["x"]) help_parser)
    (parse (["prog"] ++ "-b" :: ["x"]) help_parser) /\
  (forall argv b s', parse argv help_parser = Ok b s' ->
     forall T (E : Extract T) (val : T),
       get_arg val "--bool" s' = get_arg val "-b" s').
Proof.
  apply (aliases_interchangeable help_parser "--bool" "-b" 0 ["prog"] ["x"]
           (after (scan ["prog"]) (start ["prog"] help_parser)));
    reflexivity.
Defined.

Lemma parse_failure_keeps_state_witness :
  exists pre rest s1,
    ["prog"; "x"] = pre ++ rest /\
    scan pre (start ["prog"; "x"] required_parser) = Ok true s1 /\
    ((exists tok, rest = [tok] /\
        after (parse ["prog"; "x"]) required_parser
        = after_error_cb EXPECTED_VALUE tok s1) \/
     (rest = [] /\ exists d, d ∈ argument_defs_ s1 /\ missing s1 d /\
        after (parse ["prog"; "x"]) required_parser
        = after_error_cb MISSING_REQUIRED_ARGUMENT
            (concat_aliases (args d)) s1)) /\
    cells (after (parse ["prog"; "x"]) required_parser) = cells s1 /\
    arguments_map_ (after (parse ["prog"; "x"]) required_parser)
    = arguments_map_ s1 /\
    get_unmatched_args (after (parse ["prog"; "x"]) required_parser)
    = get_unmatched_args s1 /\
    get_program_name (after (parse ["prog"; "x"]) required_parser)
    = List.hd "" ["prog"; "x"] /\
    (forall T (E : Extract T) (val : T) a,
        fst <$> run (get_arg val a) (after (parse ["prog"; "x"]) required_parser)
        = fst <$> run (get_arg val a) s1).
Proof.
  apply (parse_failure_keeps_state ["prog"; "x"] required_parser
           (after (parse ["prog"; "x"]) required_parser)).
  reflexivity.
Defined.

Lemma add_arg_atomic_witness :
  exists a s',
    a ∈ ["--bool"] /\ is_Some (arguments_map_ help_parser !! a) /\
    add_arg ["--bool"] "again" (ArgBool true) false true help_parser = Ok false s' /\
    s' = after_error_cb DUPLICATE_DEFINITION a help_parser /\
    argument_defs_ s' = argument_defs_ help_parser /\
    arguments_map_ s' = arguments_map_ help_parser /\
    cells s' = cells help_parser.
Proof.
  apply (proj1 (add_arg_atomic ["--bool"] "again" (ArgBool true) false true
                  help_parser)).
  constructor. exists 0%nat. reflexivity.
Defined.

(** * Further properties *)

(** ** The scan, case by case *)

Lemma help_entries_state defs s body s' :
  help_entries defs s = Ok body s' -> s' = s.
Proof.
  revert body. induction defs as [|d defs IH]; simpl; intros body H.
  - injection H as _ <-. reflexivity.
  - apply bind_inv in H as (c & s1 & H1 & H).
    apply bind_inv in H as (rest & s2 & H2 & H). injection H as _ <-.
    unfold load in H1. rewrite bind_get in H1.
    destruct (cells s !! allocated_arg d); [|discriminate].
    injection H1 as _ <-. apply IH in H2. exact H2.
Qed.

Lemma print_help_inv s x s' :
  print_help s = Ok x s' ->
  exists text,
    s' = after_post_help_cb (with_effects (effects s ++ [Stdout text]) s).
Proof.
  unfold print_help. rewrite bind_get. intros H.
  apply bind_inv in H as (body & s1 & H1 & H).
  apply help_entries_state in H1 as ->.
  unfold emit in H. rewrite bind_modify, call_post_help_cb_eq in H.
  injection H as _ <-. eauto.
Qed.

(** Every way a scan that returns can have gone. *)
Lemma scan_cases (P : list string -> arger_c -> bool -> arger_c -> Prop) :
  (forall s, P [] s true s) ->
  (forall tok rest s text b s',
      auto_help_enable_ s && is_help_alias tok = true ->
      scan rest (after_post_help_cb (after_post_help_cb
                   (with_effects (effects s ++ [Stdout text]) s))) = Ok b s' ->
      P rest (after_post_help_cb (after_post_help_cb
                (with_effects (effects s ++ [Stdout text]) s))) b s' ->
      P (tok :: rest) s b s') ->
  (forall tok rest s b s',
      unmatchable s tok ->
      scan rest (with_unmatched (unmatchd_args_ s ++ [tok]) s) = Ok b s' ->
      P rest (with_unmatched (unmatchd_args_ s ++ [tok]) s) b s' ->
      P (tok :: rest) s b s') ->
  (forall tok rest s p c b s',
      auto_help_enable_ s && is_help_alias tok = false ->
      arguments_map_ s !! tok = Some p -> cells s !! p = Some c ->
      is_flag c = true ->
      scan rest (write_cell p (mark_found (set_value "true" c)) s) = Ok b s' ->
      P rest (write_cell p (mark_found (set_value "true" c)) s) b s' ->
      P (tok :: rest) s b s') ->
  (forall tok s p c,
      auto_help_enable_ s && is_help_alias tok = false ->
      arguments_map_ s !! tok = Some p -> cells s !! p = Some c ->
      is_flag c = false ->
      P [tok] s false (after_error_cb EXPECTED_VALUE tok s)) ->
  (forall tok v rest s p c b s',
      auto_help_enable_ s && is_help_alias tok = false ->
      arguments_map_ s !! tok = Some p -> cells s !! p = Some c ->
      is_flag c = false ->
      scan rest (write_cell p (mark_found (set_value v c)) s) = Ok b s' ->
      P rest (write_cell p (mark_found (set_value v c)) s) b s' ->
      P (tok :: v :: rest) s b s') ->
  forall toks s b s', scan toks s = Ok b s' -> P toks s b s'.
Proof.
  intros Hnil Hhelp Hun Hflag Hend Hval toks.
  induction toks as [|tok rest IH1 IH2] using cursor_ind; intros s b s' H.
  - injection H as <- <-. apply Hnil.
  - destruct (auto_help_enable_ s && is_help_alias tok) eqn:Hh.
    { rewrite scan_help in H by exact Hh.
      apply bind_inv in H as (? & s1 & H1 & H).
      apply print_help_inv in H1 as (text & ->).
      rewrite (bind_ok _ _ _ _ _ (call_post_help_cb_eq _)) in H.
      eapply Hhelp; eauto. }
    destruct (arguments_map_ s !! tok) as [p|] eqn:Hp.
    2:{ rewrite scan_unmatched in H by assumption.
        apply Hun; [split; assumption|exact H|apply IH1, H]. }
    destruct (cells s !! p) as [c|] eqn:Hc.
    2:{ erewrite scan_dangling in H by eassumption. discriminate. }
    destruct (is_flag c) eqn:Hf.
    { erewrite scan_flag in H by eassumption. eapply Hflag; eauto. }
    destruct rest as [|v rest'].
    { erewrite scan_value_end in H by eassumption. injection H as <- <-.
      eapply Hend; eauto. }
    erewrite scan_value in H by eassumption. eapply Hval; eauto.
Qed.

Lemma check_required_true defs s s' :
  check_required defs s = Ok true s' ->
  s' = s /\ Forall (fun d => ~ missing s d) defs.
Proof.
  induction defs as [|d defs IH]; simpl.
  - intros [= <-]. split; [reflexivity|constructor].
  - unfold load. rewrite bind_assoc, bind_get.
    destruct (cells s !! allocated_arg d) as [c|] eqn:Hc; [|discriminate].
    rewrite bind_ret_l.
    assert (Hrec : req_and_found c <> Some false ->
                   check_required defs s = Ok true s' ->
                   s' = s /\ Forall (fun d => ~ missing s d) (d :: defs)).
    { intros Hne H. destruct (IH H) as [-> Hall]. split; [reflexivity|].
      constructor; [|exact Hall]. intros (c' & Hc' & Hr). congruence. }
    destruct (req_and_found c) as [[|]|] eqn:Hr; try (apply Hrec; congruence).
    rewrite (bind_ok _ _ _ _ _ (call_error_cb_eq _ _ _)). discriminate.
Qed.

(** [parse] is the scan followed by the check, with the states between. *)
Lemma parse_inv argv s b s' :
  parse argv s = Ok b s' ->
  argv <> [] /\
  exists ok s1,
    scan argv (start argv s) = Ok ok s1 /\
    (ok = false /\ b = false /\ s' = s1 \/
     ok = true /\ check_required (argument_defs_ s1) s1 = Ok b s').
Proof.
  intros H.
  assert (Hne : argv <> []) by (destruct argv; [discriminate|done]).
  split; [exact Hne|]. rewrite parse_start in H by exact Hne.
  apply bind_inv in H as (ok & s1 & Hs & H). exists ok, s1.
  split; [exact Hs|]. destruct ok.
  - right. rewrite bind_get in H. auto.
  - left. injection H as <- <-. auto.
Qed.

(** ** Clients never reach undefined behaviour *)

Lemma add_arg_total arg desc dv required fl s :
  exists b s', add_arg arg desc dv required fl s = Ok b s'.
Proof.
  destruct (List.find (fun a => bool_decide (is_Some (arguments_map_ s !! a))) arg)
    as [a|] eqn:Hfind.
  - rewrite (add_arg_duplicate _ _ _ _ _ _ _ Hfind). eauto.
  - rewrite (add_arg_fresh _ _ _ _ _ _ Hfind). eauto.
Qed.

Lemma do_call_total c s :
  wf s -> c <> Parse [] -> exists b s', do_call c s = Ok b s' /\ wf s'.
Proof.
  intros Hwf Hc. destruct c as [arg desc dv req|arg desc dv req|argv]; simpl.
  - destruct (add_arg_total arg desc dv req false s) as (b & s' & H).
    exists b, s'. split; [exact H|]. eapply add_arg_wf; eauto.
  - destruct (add_arg_total arg desc (ArgBool dv) req true s) as (b & s' & H).
    exists b, s'. split; [exact H|]. eapply add_arg_wf; eauto.
  - apply parse_total; [exact Hwf|]. intros ->. apply Hc. reflexivity.
Qed.

(** X1. A client that starts from a well-formed parser, such as a new
    one, and never passes an empty token list to [parse] never reaches
    undefined behaviour: every call returns, the parser stays well formed,
    and there is one result per call.  An empty token list is undefined:
    [parse] reads [args[0]]. *)
Theorem calls_stay_defined cs s :
  wf s ->
  (Forall (fun c => c <> Parse []) cs ->
   exists bs s', do_calls cs s = Ok bs s' /\ wf s' /\ length bs = length cs) /\
  parse [] s = Undefined.
Proof.
  intros Hwf. split; [|reflexivity].
  intros Hcs. revert s Hwf. induction Hcs as [|c cs Hc _ IH]; intros s Hwf.
  - exists [], s. auto.
  - destruct (do_call_total c s Hwf Hc) as (b & s1 & H1 & Hwf1).
    destruct (IH s1 Hwf1) as (bs & s' & H & Hwf' & Hlen).
    exists (b :: bs), s'. simpl.
    rewrite (bind_ok _ _ _ _ _ H1), (bind_ok _ _ _ _ _ H).
    split; [reflexivity|]. split; [exact Hwf'|]. simpl. congruence.
Qed.

Lemma calls_stay_defined_witness :
  (exists bs s',
      do_calls [AddFlag ["-v"] "verbose" false false;
                AddArgument ["-v"; "-o"] "output" (ArgString "a.out") true;
                Parse ["prog"; "-v"; "-o"]] (arger_new false)
      = Ok bs s' /\ wf s' /\ length bs = 3%nat).
Proof.
  apply (proj1 (calls_stay_defined
                  [AddFlag ["-v"] "verbose" false false;
                   AddArgument ["-v"; "-o"] "output" (ArgString "a.out") true;
                   Parse ["prog"; "-v"; "-o"]]
                  (arger_new false) (wf_arger_new false))).
  repeat constructor; discriminate.
Defined.

(** ** Cells only move forward *)

Lemma cell_evolves_refl c : cell_evolves c c.
Proof. split; auto. Qed.

Lemma cell_evolves_trans c1 c2 c3 :
  cell_evolves c1 c2 -> cell_evolves c2 c3 -> cell_evolves c1 c3.
Proof.
  intros [F1 R1] [F2 R2]. split; [congruence|].
  destruct R1 as [R1|[R1 R1']], R2 as [R2|[R2 R2']]; try (left; congruence);
    try (right; split; congruence).
Qed.

Lemma evolves_cells s s' : cells s' = cells s -> evolves s s'.
Proof. intros E p c H. exists c. rewrite E. split; [exact H|apply cell_evolves_refl]. Qed.

Lemma evolves_trans s1 s2 s3 : evolves s1 s2 -> evolves s2 s3 -> evolves s1 s3.
Proof.
  intros H1 H2 p c Hc. destruct (H1 p c Hc) as (c2 & Hc2 & E1).
  destruct (H2 p c2 Hc2) as (c3 & Hc3 & E2).
  exists c3. split; [exact Hc3|eapply cell_evolves_trans; eauto].
Qed.

Lemma cell_evolves_store v c : cell_evolves c (mark_found (set_value v c)).
Proof.
  unfold mark_found. simpl. destruct (req_and_found c) as [[|]|] eqn:Hr;
    split; simpl; auto.
Qed.

Lemma evolves_write_cell p v c s :
  cells s !! p = Some c ->
  evolves s (write_cell p (mark_found (set_value v c)) s).
Proof.
  intros Hc q c0 Hq. simpl. destruct (decide (p = q)) as [<-|Hne].
  - exists (mark_found (set_value v c)). split.
    + apply list_lookup_insert_eq. eapply lookup_lt_Some, Hc.
    + assert (c0 = c) as -> by congruence. apply cell_evolves_store.
  - exists c0. rewrite list_lookup_insert_ne by exact Hne.
    split; [exact Hq|apply cell_evolves_refl].
Qed.

Lemma cells_after_error_cb e ctx s : cells (after_error_cb e ctx s) = cells s.
Proof. unfold after_error_cb. destruct (error_cb_ s); reflexivity. Qed.

Lemma cells_after_post_help_cb s : cells (after_post_help_cb s) = cells s.
Proof. unfold after_post_help_cb. destruct (post_help_cb_ s); reflexivity. Qed.

Lemma scan_evolves toks s b s' : scan toks s = Ok b s' -> evolves s s'.
Proof.
  revert toks s b s'. apply scan_cases.
  - intros s. apply evolves_cells. reflexivity.
  - intros tok rest s text b s' _ _ IH.
    eapply evolves_trans; [|exact IH]. apply evolves_cells.
    rewrite !cells_after_post_help_cb. reflexivity.
  - intros tok rest s b s' _ _ IH.
    eapply evolves_trans; [|exact IH]. apply evolves_cells. reflexivity.
  - intros tok rest s p c b s' _ _ Hc _ _ IH.
    eapply evolves_trans; [|exact IH]. apply evolves_write_cell, Hc.
  - intros tok s p c _ _ _ _. apply evolves_cells, cells_after_error_cb.
  - intros tok v rest s p c b s' _ _ Hc _ _ IH.
    eapply evolves_trans; [|exact IH]. apply evolves_write_cell, Hc.
Qed.

Lemma check_required_cells defs s b s' :
  check_required defs s = Ok b s' -> cells s' = cells s.
Proof.
  destruct b; intros H.
  - apply check_required_true in H as [-> _]. reflexivity.
  - apply check_required_false in H as (d & _ & _ & ->).
    apply cells_after_error_cb.
Qed.

Lemma parse_evolves argv s b s' : parse argv s = Ok b s' -> evolves s s'.
Proof.
  intros H. apply parse_inv in H as (_ & ok & s1 & Hs & H).
  apply scan_evolves in Hs.
  assert (Hs' : evolves s s1).
  { eapply evolves_trans; [|exact Hs]. apply evolves_cells. reflexivity. }
  destruct H as [(_ & _ & ->)|(_ & H)]; [exact Hs'|].
  eapply evolves_trans; [exact Hs'|].
  eapply evolves_cells, check_required_cells, H.
Qed.

Lemma add_arg_evolves arg desc dv required fl s b s' :
  add_arg arg desc dv required fl s = Ok b s' -> evolves s s'.
Proof.
  destruct (List.find (fun a => bool_decide (is_Some (arguments_map_ s !! a))) arg)
    as [a|] eqn:Hfind.
  - rewrite (add_arg_duplicate _ _ _ _ _ _ _ Hfind). intros [= _ <-].
    apply evolves_cells, cells_after_error_cb.
  - rewrite (add_arg_fresh _ _ _ _ _ _ Hfind). intros [= _ <-].
    intros p c Hc. exists c. simpl. split; [|apply cell_evolves_refl].
    apply lookup_app_l_Some, Hc.
Qed.

(** X2. Whatever a client calls, a cell that exists keeps its address
    and its kind (flag or option), and its found-state never goes back: it
    stays as it is or goes from [false] to [true], so a definition that is
    not required never becomes required and one that was seen stays seen,
    also over later calls of [parse]. *)
Theorem cells_only_move_forward cs s bs s' :
  do_calls cs s = Ok bs s' -> evolves s s'.
Proof.
  revert s bs. induction cs as [|c cs IH]; simpl; intros s bs H.
  - injection H as _ <-. apply evolves_cells. reflexivity.
  - apply bind_inv in H as (b & s1 & H1 & H).
    apply bind_inv in H as (bs' & s2 & H2 & H). injection H as _ <-.
    eapply evolves_trans; [|eapply IH, H2].
    destruct c; simpl in H1;
      [eapply add_arg_evolves, H1|eapply add_arg_evolves, H1|eapply parse_evolves, H1].
Qed.

Lemma cells_only_move_forward_witness :
  evolves required_parser
    (after (do_calls [Parse ["prog"; "-b"; "7"]; Parse ["prog"]]) required_parser).
Proof.
  apply (cells_only_move_forward [Parse ["prog"; "-b"; "7"]; Parse ["prog"]]
           required_parser [true; true]).
  reflexivity.
Defined.

Lemma not_missing_evolves s s' d :
  (allocated_arg d < length (cells s))%nat ->
  evolves s s' -> ~ missing s d -> ~ missing s' d.
Proof.
  intros Hd He Hn (c' & Hc' & Hr').
  destruct (lookup_lt_is_Some_2 _ _ Hd) as [c Hc].
  destruct (He _ _ Hc) as (c'' & Hc'' & _ & Hr).
  assert (c'' = c') as -> by congruence.
  apply Hn. exists c. split; [exact Hc|].
  destruct Hr as [Hr|[Hr Hr2]]; congruence.
Qed.

(** X3. Once every required definition has been seen, no later [parse]
    reports a missing one, whatever its tokens: all definitions are still
    found afterwards, and [parse] can only return [false] for a
    value-bearing option that is the last token. *)
Theorem found_stays_found argv s b s' :
  wf s ->
  Forall (fun d => ~ missing s d) (argument_defs_ s) ->
  parse argv s = Ok b s' ->
  Forall (fun d => ~ missing s' d) (argument_defs_ s') /\
  (b = false ->
   exists pre tok s1,
     argv = pre ++ [tok] /\ scan pre (start argv s) = Ok true s1 /\
     s' = after_error_cb EXPECTED_VALUE tok s1).
Proof.
  intros [_ Hwf] Hall H.
  assert (Hkeep : forall t, evolves s t -> argument_defs_ t = argument_defs_ s ->
                            Forall (fun d => ~ missing t d) (argument_defs_ t)).
  { intros t He ->. rewrite Forall_forall in *. intros d Hd.
    eapply not_missing_evolves; [apply Hwf, Hd|exact He|apply Hall, Hd]. }
  split.
  - apply Hkeep; [eapply parse_evolves, H|].
    apply parse_stable in H as (_&_&_&Ed&_). exact Ed.
  - intros ->. apply parse_inv in H as (_ & ok & s1 & Hs & H).
    destruct H as [(-> & _ & ->)|(-> & H)].
    + apply scan_false in Hs. exact Hs.
    + apply check_required_false in H as (d & Hin & Hm & _).
      assert (Hs1 : Forall (fun d => ~ missing s1 d) (argument_defs_ s1)).
      { apply Hkeep.
        - eapply evolves_trans; [|eapply scan_evolves, Hs].
          apply evolves_cells. reflexivity.
        - apply Stable_scan in Hs as (_&_&_&Ed&_). exact Ed. }
      rewrite Forall_forall in Hs1. destruct (Hs1 d Hin Hm).
Qed.

Lemma found_stays_found_witness :
  Forall (fun d => ~ missing (after (parse ["prog"]) (after (parse ["prog"; "-b"; "7"]) required_parser)) d)
    (argument_defs_ (after (parse ["prog"]) (after (parse ["prog"; "-b"; "7"]) required_parser))) /\
  (true = false ->
   exists pre tok s1,
     ["prog"] = pre ++ [tok] /\
     scan pre (start ["prog"] (after (parse ["prog"; "-b"; "7"]) required_parser))
     = Ok true s1 /\
     after (parse ["prog"]) (after (parse ["prog"; "-b"; "7"]) required_parser)
     = after_error_cb EXPECTED_VALUE tok s1).
Proof.
  apply (found_stays_found ["prog"]
           (after (parse ["prog"; "-b"; "7"]) required_parser) true
           (after (parse ["prog"]) (after (parse ["prog"; "-b"; "7"]) required_parser))).
  - eapply wf_stable; [apply (wf_start ["prog"; "-b"; "7"]), wf_required_parser|].
    apply (parse_stable ["prog"; "-b"; "7"] required_parser true). reflexivity.
  - repeat constructor. intros (c & Hc & Hr).
    vm_compute in Hc. injection Hc as <-. discriminate.
  - reflexivity.
Defined.

(** ** Calls of the error callback *)

Lemma error_calls_app es1 es2 :
  error_calls (es1 ++ es2) = (error_calls es1 + error_calls es2)%nat.
Proof. unfold error_calls. rewrite List.filter_app, length_app. reflexivity. Qed.

Lemma effects_after_error_cb e ctx s :
  effects (after_error_cb e ctx s)
  = effects s ++ (if error_cb_ s then [ErrorCb e ctx] else []).
Proof.
  unfold after_error_cb. destruct (error_cb_ s); simpl; [reflexivity|].
  symmetry. apply app_nil_r.
Qed.

Lemma effects_after_post_help_cb s :
  effects (after_post_help_cb s)
  = effects s ++ (if post_help_cb_ s then [PostHelpCb] else []).
Proof.
  unfold after_post_help_cb. destruct (post_help_cb_ s); simpl; [reflexivity|].
  symmetry. apply app_nil_r.
Qed.

Lemma post_help_cb_after_post_help_cb s :
  post_help_cb_ (after_post_help_cb s) = post_help_cb_ s.
Proof. unfold after_post_help_cb. destruct (post_help_cb_ s) eqn:E; simpl; auto. Qed.

Lemma error_cb_after_post_help_cb s :
  error_cb_ (after_post_help_cb s) = error_cb_ s.
Proof. unfold after_post_help_cb. destruct (post_help_cb_ s); reflexivity. Qed.

Lemma scan_error_calls toks s b s' :
  scan toks s = Ok b s' ->
  exists es,
    effects s' = effects s ++ es /\
    error_calls es = (if b then 0 else if error_cb_ s then 1 else 0)%nat.
Proof.
  revert toks s b s'. apply scan_cases.
  - intros s. exists []. split; [symmetry; apply app_nil_r|reflexivity].
  - intros tok rest s text b s' _ _ (es & He & Hn).
    rewrite !effects_after_post_help_cb, !post_help_cb_after_post_help_cb in He.
    rewrite !error_cb_after_post_help_cb in Hn. simpl in He, Hn.
    eexists. split; [rewrite He, <- !app_assoc; reflexivity|].
    rewrite !error_calls_app, Hn. destruct (post_help_cb_ s); reflexivity.
  - intros tok rest s b s' _ _ IH. exact IH.
  - intros tok rest s p c b s' _ _ _ _ _ IH. exact IH.
  - intros tok s p c _ _ _ _. eexists. split; [apply effects_after_error_cb|].
    destruct (error_cb_ s); reflexivity.
  - intros tok v rest s p c b s' _ _ _ _ _ IH. exact IH.
Qed.

(** X4. [parse] calls the error callback exactly when it fails: a call
    that returns [true] makes no call of the error callback, and a call
    that returns [false] makes exactly one when a callback is installed and
    none otherwise.  Effects are only ever appended. *)
Theorem parse_error_cb_once argv s b s' :
  parse argv s = Ok b s' ->
  exists es,
    effects s' = effects s ++ es /\
    error_calls es = (if b then 0 else if error_cb_ s then 1 else 0)%nat.
Proof.
  intros H. apply parse_inv in H as (_ & ok & s1 & Hs & H).
  pose proof (Stable_scan _ _ _ _ Hs) as (_ & Ecb & _).
  apply scan_error_calls in Hs as (es & He & Hn). simpl in He, Hn.
  destruct H as [(-> & -> & ->)|(-> & H)]; [eauto|].
  destruct b.
  - apply check_required_true in H as [-> _]. eauto.
  - apply check_required_false in H as (d & _ & _ & ->).
    rewrite effects_after_error_cb, He, <- app_assoc.
    eexists. split; [reflexivity|]. rewrite error_calls_app, Hn, Ecb. simpl.
    destruct (error_cb_ s); reflexivity.
Qed.

Lemma parse_error_cb_once_witness :
  exists es,
    effects (after (parse ["prog"; "-h"]) required_parser)
    = effects required_parser ++ es /\
    error_calls es = 1%nat.
Proof.
  apply (parse_error_cb_once ["prog"; "-h"] required_parser false
           (after (parse ["prog"; "-h"]) required_parser)).
  reflexivity.
Defined.

Lemma auto_help_after_post_help_cb s :
  auto_help_enable_ (after_post_help_cb s) = auto_help_enable_ s.
Proof. unfold after_post_help_cb. destruct (post_help_cb_ s); reflexivity. Qed.

Lemma scan_without_help toks s b s' :
  scan toks s = Ok b s' ->
  auto_help_enable_ s = false ->
  if b then effects s' = effects s
  else effects s' = effects (after_error_cb EXPECTED_VALUE (List.last toks "") s).
Proof.
  revert toks s b s'.
  apply (scan_cases (fun toks s b s' =>
    auto_help_enable_ s = false ->
    if b then effects s' = effects s
    else effects s'
         = effects (after_error_cb EXPECTED_VALUE (List.last toks "") s))).
  - reflexivity.
  - intros tok rest s text b s' Hh _ _ Hoff. rewrite Hoff in Hh. discriminate.
  - intros tok rest s b s' _ Hs IH Hoff. specialize (IH Hoff).
    destruct b; [exact IH|]. destruct rest; [discriminate Hs|].
    rewrite IH, !effects_after_error_cb. reflexivity.
  - intros tok rest s p c b s' _ _ _ _ Hs IH Hoff. specialize (IH Hoff).
    destruct b; [exact IH|]. destruct rest; [discriminate Hs|].
    rewrite IH, !effects_after_error_cb. reflexivity.
  - reflexivity.
  - intros tok v rest s p c b s' _ _ _ _ Hs IH Hoff. specialize (IH Hoff).
    destruct b; [exact IH|]. destruct rest; [discriminate Hs|].
    rewrite IH, !effects_after_error_cb. reflexivity.
Qed.

(** X5. With automatic help switched off [parse] writes nothing and
    never calls the post-help callback, also for the tokens "-h" and
    "--help": a call that returns [true] leaves the effects as they were,
    and one that returns [false] adds at most the one call of the error
    callback. *)
Theorem parse_without_auto_help argv s b s' :
  auto_help_enable_ s = false ->
  parse argv s = Ok b s' ->
  if b then effects s' = effects s
  else exists e ctx, effects s' = effects (after_error_cb e ctx s).
Proof.
  intros Hoff H. apply parse_inv in H as (_ & ok & s1 & Hs & H).
  pose proof (Stable_scan _ _ _ _ Hs) as (_ & Ecb & _).
  apply scan_without_help in Hs; [|exact Hoff].
  destruct H as [(-> & -> & ->)|(-> & H)].
  - eexists _, _. rewrite Hs, !effects_after_error_cb. reflexivity.
  - simpl in Hs. destruct b.
    + apply check_required_true in H as [-> _]. exact Hs.
    + apply check_required_false in H as (d & _ & _ & ->).
      eexists _, _. rewrite !effects_after_error_cb, Hs, Ecb. reflexivity.
Qed.

Lemma parse_without_auto_help_witness :
  effects (after (parse ["prog"; "-h"; "-b"; "1"; "--help"])
             (with_auto_help false required_parser))
  = effects (with_auto_help false required_parser).
Proof.
  apply (parse_without_auto_help ["prog"; "-h"; "-b"; "1"; "--help"]
           (with_auto_help false required_parser) true
           (after (parse ["prog"; "-h"; "-b"; "1"; "--help"])
              (with_auto_help false required_parser)));
    reflexivity.
Defined.

(** ** Unmatched tokens *)

Lemma unmatchable_same s t tok :
  arguments_map_ t = arguments_map_ s ->
  auto_help_enable_ t = auto_help_enable_ s ->
  unmatchable t tok -> unmatchable s tok.
Proof. unfold unmatchable. intros -> ->. auto. Qed.

Lemma scan_unmatched_tokens toks s b s' :
  scan toks s = Ok b s' ->
  exists l,
    unmatchd_args_ s' = unmatchd_args_ s ++ l /\
    l `sublist_of` toks /\
    Forall (unmatchable s) l.
Proof.
  revert toks s b s'. apply scan_cases.
  - intros s. exists []. split; [symmetry; apply app_nil_r|].
    split; constructor.
  - intros tok rest s text b s' _ Hs (l & Hl & Hsub & Hall).
    exists l. split.
    { rewrite Hl. unfold after_post_help_cb.
      destruct (post_help_cb_ _); destruct (post_help_cb_ _); reflexivity. }
    split; [apply sublist_cons, Hsub|].
    eapply Forall_impl; [exact Hall|]. intros t.
    apply unmatchable_same; unfold after_post_help_cb;
      destruct (post_help_cb_ _); destruct (post_help_cb_ _); reflexivity.
  - intros tok rest s b s' Hun _ (l & Hl & Hsub & Hall).
    exists (tok :: l). split; [rewrite Hl; simpl; rewrite <- app_assoc; reflexivity|].
    split; [apply sublist_skip, Hsub|]. constructor; [exact Hun|exact Hall].
  - intros tok rest s p c b s' _ _ _ _ _ (l & Hl & Hsub & Hall).
    exists l. split; [exact Hl|]. split; [apply sublist_cons, Hsub|exact Hall].
  - intros tok s p c _ _ _ _. exists []. split.
    { unfold after_error_cb. destruct (error_cb_ s); simpl;
        symmetry; apply app_nil_r. }
    split; [apply sublist_nil_l|constructor].
  - intros tok v rest s p c b s' _ _ _ _ _ (l & Hl & Hsub & Hall).
    exists l. split; [exact Hl|].
    split; [apply sublist_cons, sublist_cons, Hsub|exact Hall].
Qed.

Lemma unmatchd_args_check_required defs s b s' :
  check_required defs s = Ok b s' -> unmatchd_args_ s' = unmatchd_args_ s.
Proof.
  destruct b; intros H.
  - apply check_required_true in H as [-> _]. reflexivity.
  - apply check_required_false in H as (d & _ & _ & ->).
    unfold after_error_cb. destruct (error_cb_ s); reflexivity.
Qed.

(** X6. The tokens a call of [parse] adds to the unmatched list are
    tokens of its input, in input order, and none of them is a registered
    alias or, with automatic help on, a help token. *)
Theorem unmatched_args_are_input_tokens argv s b s' :
  parse argv s = Ok b s' ->
  exists l,
    get_unmatched_args s' = get_unmatched_args s ++ l /\
    l `sublist_of` argv /\
    Forall (unmatchable s) l.
Proof.
  intros H. apply parse_inv in H as (_ & ok & s1 & Hs & H).
  apply scan_unmatched_tokens in Hs as (l & Hl & Hsub & Hall).
  exists l. split; [|split; [exact Hsub|exact Hall]].
  unfold get_unmatched_args.
  destruct H as [(_ & _ & ->)|(_ & H)]; [exact Hl|].
  rewrite (unmatchd_args_check_required _ _ _ _ H). exact Hl.
Qed.

Lemma unmatched_args_are_input_tokens_witness :
  exists l,
    get_unmatched_args (after (parse ["prog"; "-b"; "x"; "y"]) required_parser)
    = get_unmatched_args required_parser ++ l /\
    l `sublist_of` ["prog"; "-b"; "x"; "y"] /\
    Forall (unmatchable required_parser) l.
Proof.
  apply (unmatched_args_are_input_tokens ["prog"; "-b"; "x"; "y"]
           required_parser true
           (after (parse ["prog"; "-b"; "x"; "y"]) required_parser)).
  reflexivity.
Defined.

Lemma scan_all_unmatchable toks s :
  Forall (unmatchable s) toks ->
  scan toks s = Ok true (with_unmatched (unmatchd_args_ s ++ toks) s).
Proof.
  revert s. induction toks as [|tok rest IH]; intros s Hall.
  - simpl. rewrite app_nil_r. destruct s; reflexivity.
  - inversion Hall as [|? ? [Hm Hh] Hrest]; subst.
    rewrite scan_unmatched by assumption.
    rewrite IH by exact Hrest. simpl. rewrite <- app_assoc. reflexivity.
Qed.

(** X7. When no token is a registered alias or an active help token,
    and no required definition is pending, [parse] returns [true] and
    changes nothing but the program name and the unmatched list, to which
    it appends the whole input, program name included. *)
Theorem parse_keeps_all_unmatchable argv s :
  wf s -> argv <> [] ->
  Forall (unmatchable s) argv ->
  Forall (fun d => ~ missing s d) (argument_defs_ s) ->
  parse argv s
  = Ok true (with_unmatched (unmatchd_args_ s ++ argv) (start argv s)).
Proof.
  intros [_ Hwf] Hne Hall Hreq. rewrite parse_start by exact Hne.
  unfold parse_rest.
  erewrite bind_ok by (apply scan_all_unmatchable; exact Hall).
  cbv beta iota. rewrite bind_get. apply check_required_none; assumption.
Qed.

Lemma parse_keeps_all_unmatchable_witness :
  parse ["prog"; "a"; "b"] help_parser
  = Ok true (with_unmatched (unmatchd_args_ help_parser ++ ["prog"; "a"; "b"])
               (start ["prog"; "a"; "b"] help_parser)).
Proof.
  apply (parse_keeps_all_unmatchable ["prog"; "a"; "b"] help_parser
           wf_help_parser).
  - discriminate.
  - repeat constructor.
  - repeat constructor. intros (c & Hc & Hr).
    vm_compute in Hc. injection Hc as <-. discriminate.
Defined.

(** X8. Whenever [parse] returns, with [true] or with [false], the
    program name is the first token of that call. *)
Theorem parse_sets_program_name argv s b s' :
  parse argv s = Ok b s' -> argv !! 0%nat = Some (get_program_name s').
Proof.
  intros H. pose proof (parse_stable _ _ _ _ H) as (_&_&_&_&_&En&_).
  unfold get_program_name. rewrite En.
  destruct argv; [discriminate H|reflexivity].
Qed.

Lemma parse_sets_program_name_witness :
  ["tool"; "-b"] !! 0%nat
  = Some (get_program_name (after (parse ["tool"; "-b"])
                              (after (parse ["prog"; "-b"; "1"]) required_parser))).
Proof.
  apply (parse_sets_program_name ["tool"; "-b"]
           (after (parse ["prog"; "-b"; "1"]) required_parser) false).
  reflexivity.
Defined.

(** ** Retrieval and registration *)



Lemma find_registered_none arg s :
  List.find (fun a => bool_decide (is_Some (arguments_map_ s !! a))) arg = None ->
  forall a, a ∈ arg -> arguments_map_ s !! a = None.
Proof.
  intros Hfind a Ha. apply list_elem_of_In in Ha.
  pose proof (find_none _ _ Hfind a Ha) as Hf.
  apply bool_decide_eq_false in Hf.
  destruct (arguments_map_ s !! a); [|reflexivity].
  exfalso. apply Hf. eauto.
Qed.


(** X10. Registering a definition, whether it succeeds or fails, never
    disturbs the definitions that are there: every alias registered before
    still reads back the same value. *)
Theorem add_arg_keeps_registered arg desc dv required fl s b s' :
  wf s ->
  add_arg arg desc dv required fl s = Ok b s' ->
  forall a, is_Some (arguments_map_ s !! a) ->
  forall T (E : Extract T) (val : T),
    fst <$> run (get_arg val a) s' = fst <$> run (get_arg val a) s.
Proof.
  intros [Hm _] H a [p Hp] T E val.
  destruct (List.find (fun a => bool_decide (is_Some (arguments_map_ s !! a))) arg)
    as [a'|] eqn:Hfind.
  - rewrite (add_arg_duplicate _ _ _ _ _ _ _ Hfind) in H. injection H as _ <-.
    apply get_arg_reads; unfold after_error_cb; destruct (error_cb_ s); reflexivity.
  - rewrite (add_arg_fresh _ _ _ _ _ _ Hfind) in H. injection H as _ <-.
    assert (Ha : a ∉ arg).
    { intros Ha. rewrite (find_registered_none _ _ Hfind a Ha) in Hp. discriminate. }
    unfold run, get_arg. rewrite !bind_get. unfold with_registry at 1.
    cbn [arguments_map_].
    rewrite foldl_insert_lookup, decide_False by exact Ha. rewrite Hp.
    unfold load. rewrite !bind_assoc, !bind_get. cbn [cells with_registry].
    rewrite lookup_app_l by (eapply Hm, Hp).
    destruct (cells s !! p); reflexivity.
Qed.

Lemma add_arg_keeps_registered_witness :
  fst <$> run (get_arg 0 "-b")
            (after (add_arg ["-o"] "output" (ArgString "a.out") false false)
               required_parser)
  = fst <$> run (get_arg 0 "-b") required_parser.
Proof.
  apply (add_arg_keeps_registered ["-o"] "output" (ArgString "a.out") false false
           required_parser true
           (after (add_arg ["-o"] "output" (ArgString "a.out") false false)
              required_parser)
           wf_required_parser eq_refl "-b").
  exists 0%nat. reflexivity.
Defined.





(** ** A definition without an alias *)




(** ** Reading back what was written *)

Lemma digit_pretty_N_char d :
  (d < 10)%N -> digit (pretty_N_char d) = Some (Z.of_N d).
Proof.
  intros Hd.
  assert (H : (d = 0 \/ d = 1 \/ d = 2 \/ d = 3 \/ d = 4 \/ d = 5 \/ d = 6 \/
               d = 7 \/ d = 8 \/ d = 9)%N) by lia.
  repeat (destruct H as [->|H]; [reflexivity|]). subst. reflexivity.
Qed.

Lemma isspace_pretty_N_char d : isspace (pretty_N_char d) = false.
Proof. destruct d as [|p]; [reflexivity|].
  do 4 (destruct p as [p|p|]; try reflexivity). Qed.

Lemma digits_pretty_N_go x :
  (0 < x)%N ->
  forall s, exists k : nat, forall acc,
    digits (pretty_N_go x s) acc
    = digits s (Some (default 0 acc * 10 ^ Z.of_nat k + Z.of_N x)).
Proof.
  induction (N.lt_wf_0 x) as [x _ IH]. intros Hx s.
  rewrite pretty_N_go_step by exact Hx.
  assert (Hmod : (x `mod` 10 < 10)%N) by (apply N.mod_lt; lia).
  assert (Hdiv : Z.of_N x = 10 * Z.of_N (x `div` 10) + Z.of_N (x `mod` 10)).
  { rewrite (N.div_mod x 10) at 1 by lia. lia. }
  destruct (decide (x `div` 10 = 0)%N) as [H0|H0].
  - rewrite H0, pretty_N_go_0. exists 1%nat. intros acc. simpl digits.
    rewrite (digit_pretty_N_char _ Hmod). f_equal. f_equal.
    rewrite Hdiv, H0. simpl Z.of_nat. lia.
  - destruct (IH (x `div` 10)%N) with (s := String (pretty_N_char (x `mod` 10)) s)
      as [k Hk].
    + apply N.div_lt; lia.
    + lia.
    + exists (S k). intros acc. rewrite Hk. simpl digits.
      rewrite (digit_pretty_N_char _ Hmod). f_equal. f_equal. simpl default.
      rewrite Nat2Z.inj_succ, Z.pow_succ_r by lia. rewrite Hdiv. ring.
Qed.

Lemma pretty_N_go_head x s :
  (0 < x)%N ->
  exists d rest, pretty_N_go x s = String (pretty_N_char d) rest.
Proof.
  revert s. induction (N.lt_wf_0 x) as [x _ IH]. intros s Hx.
  rewrite pretty_N_go_step by exact Hx.
  destruct (decide (x `div` 10 = 0)%N) as [H0|H0].
  - rewrite H0, pretty_N_go_0. eauto.
  - apply IH; [apply N.div_lt; lia|]. apply N.neq_0_lt_0, H0.
Qed.

Lemma extract_long_digits d rest :
  extract_long (String (pretty_N_char d) rest)
  = match digits (String (pretty_N_char d) rest) None with
    | None => 0
    | Some n => Z.max LONG_MIN (Z.min LONG_MAX n)
    end.
Proof. destruct d as [|p]; [reflexivity|].
  do 4 (destruct p as [p|p|]; try reflexivity). Qed.

Lemma extract_long_pretty_pos p :
  extract_long (pretty_N_go (N.pos p) "")
  = Z.max LONG_MIN (Z.min LONG_MAX (Z.pos p)) /\
  extract_long (String "-" (pretty_N_go (N.pos p) ""))
  = Z.max LONG_MIN (Z.min LONG_MAX (Z.neg p)) /\
  skipws (pretty_N_go (N.pos p) "") = pretty_N_go (N.pos p) "" /\
  pretty_N_go (N.pos p) "" <> "".
Proof.
  destruct (digits_pretty_N_go (N.pos p) ltac:(lia) "") as [k Hk].
  specialize (Hk None). simpl in Hk.
  destruct (pretty_N_go_head (N.pos p) "" ltac:(lia)) as (d & rest & Hd).
  split; [|split; [|split]].
  - rewrite Hd, extract_long_digits, <- Hd, Hk. reflexivity.
  - unfold extract_long. rewrite Hk. reflexivity.
  - rewrite Hd. simpl. rewrite isspace_pretty_N_char. reflexivity.
  - rewrite Hd. discriminate.
Qed.

(** What [operator>>] makes of what [std::to_string] wrote for an
    [int64_t]. *)
Lemma extract_to_string_int64 (val : Z) n :
  LONG_MIN <= n <= LONG_MAX -> extract val (to_string (ArgInt64 n)) = n.
Proof.
  intros Hn. unfold extract, extract_int64, to_string.
  destruct n as [|p|p].
  - reflexivity.
  - destruct (extract_long_pretty_pos p) as (E1 & _ & E3 & E4).
    change (pretty (Z.pos p)) with (pretty_N_go (N.pos p) "").
    rewrite E3. destruct (pretty_N_go (N.pos p) "") eqn:E; [done|].
    rewrite E1. lia.
  - destruct (extract_long_pretty_pos p) as (_ & E2 & _).
    change (pretty (Z.neg p)) with (String "-" (pretty_N_go (N.pos p) "")).
    change (skipws (String "-" ?s)) with (String "-" s).
    cbv beta iota. rewrite E2. lia.
Qed.

Lemma word_no_space t : no_space t = true -> word t = t.
Proof.
  induction t as [|c t IH]; simpl; [reflexivity|].
  intros H. apply andb_true_iff in H as [Hc Ht].
  apply negb_true_iff in Hc. rewrite Hc, IH by exact Ht. reflexivity.
Qed.

(** A text without white space is read back whole as a [std::string]. *)
Lemma extract_string_no_space (val : string) t :
  t <> "" -> no_space t = true -> extract val t = t.
Proof.
  intros Hne Hns. unfold extract, extract_string.
  destruct t as [|c t]; [done|].
  pose proof Hns as Hc. simpl in Hc. apply andb_true_iff in Hc as [Hc _].
  apply negb_true_iff in Hc. simpl skipws. rewrite Hc.
  apply word_no_space, Hns.
Qed.

Lemma registered_default_reads {T} `{Extract T} (val : T)
    arg desc dv required fl s a :
  Forall (fun x => arguments_map_ s !! x = None) arg ->
  a ∈ arg ->
  fst <$> run (add_arg arg desc dv required fl ;;; get_arg val a) s
  = Some (Some (extract val (to_string dv))).
Proof.
  intros Hfresh Ha.
  assert (Hfind : List.find
            (fun a => bool_decide (is_Some (arguments_map_ s !! a))) arg = None).
  { destruct (List.find _ arg) as [a'|] eqn:Hfind; [|reflexivity].
    apply find_some in Hfind as [Hin Hb]. apply bool_decide_eq_true in Hb.
    rewrite Forall_forall in Hfresh.
    rewrite (Hfresh a') in Hb by (apply list_elem_of_In, Hin).
    destruct Hb as [? [=]]. }
  unfold run. rewrite (bind_ok _ _ _ _ _ (add_arg_fresh _ _ _ _ _ _ Hfind)).
  unfold get_arg. rewrite bind_get. unfold with_registry at 1.
  cbn [arguments_map_]. rewrite foldl_insert_lookup, decide_True by exact Ha.
  unfold load. rewrite bind_assoc, bind_get. cbn [cells with_registry].
  rewrite lookup_app_r by lia. rewrite Nat.sub_diag. reflexivity.
Qed.

(** X14. A default of type [int64_t] survives the round trip through
    the stored text: after [add_argument] with the default [n], any value
    of the type, [get_arg<int64_t>] on any alias of the new definition
    gives [n] back. *)
Theorem int64_default_round_trip arg desc n required s a (val : Z) :
  Forall (fun x => arguments_map_ s !! x = None) arg ->
  a ∈ arg ->
  LONG_MIN <= n <= LONG_MAX ->
  fst <$> run (add_argument arg desc (ArgInt64 n) required ;;; get_arg val a) s
  = Some (Some n).
Proof.
  intros Hfresh Ha Hn. unfold add_argument.
  rewrite (registered_default_reads val _ _ _ _ _ _ _ Hfresh Ha).
  rewrite (extract_to_string_int64 val n Hn). reflexivity.
Qed.

Lemma int64_default_round_trip_witness :
  fst <$> run (add_argument ["-n"; "--count"] "a count" (ArgInt64 (-9223372036854775808)) false ;;;
               get_arg 0 "--count") required_parser
  = Some (Some (-9223372036854775808)).
Proof.
  apply (int64_default_round_trip ["-n"; "--count"] "a count"
           (-9223372036854775808) false required_parser "--count" 0).
  - repeat constructor.
  - right. left.
  - unfold LONG_MIN, LONG_MAX. lia.
Defined.

(** X15. A default of type [std::string] that is not empty and holds
    no white space survives the round trip: [get_arg<std::string>] on any
    alias of the new definition gives it back. *)
Theorem string_default_round_trip arg desc t required s a (val : string) :
  Forall (fun x => arguments_map_ s !! x = None) arg ->
  a ∈ arg ->
  t <> "" -> no_space t = true ->
  fst <$> run (add_argument arg desc (ArgString t) required ;;; get_arg val a) s
  = Some (Some t).
Proof.
  intros Hfresh Ha Hne Hns. unfold add_argument.
  rewrite (registered_default_reads val _ _ _ _ _ _ _ Hfresh Ha).
  simpl to_string. rewrite (extract_string_no_space val t Hne Hns). reflexivity.
Qed.

Lemma string_default_round_trip_witness :
  fst <$> run (add_argument ["-o"] "output" (ArgString "a.out") false ;;;
               get_arg "" "-o") required_parser
  = Some (Some "a.out").
Proof.
  apply (string_default_round_trip ["-o"] "output" "a.out" false
           required_parser "-o" "").
  - repeat constructor.
  - left.
  - discriminate.
  - reflexivity.
Defined.

Lemma get_arg_cell {T} `{Extract T} (val : T) a s p c :
  arguments_map_ s !! a = Some p -> cells s !! p = Some c ->
  fst <$> run (get_arg val a) s = Some (Some (extract val (value c))).
Proof.
  intros Hp Hc. unfold run, get_arg. rewrite bind_get, Hp.
  unfold load. rewrite bind_assoc, bind_get, Hc. reflexivity.
Qed.

Lemma value_mark_found c : value (mark_found c) = value c.
Proof. unfold mark_found. destruct (req_and_found c); reflexivity. Qed.

Lemma req_mark_found c :
  req_and_found (mark_found c)
  = if req_and_found c is Some _ then Some true else None.
Proof.
  unfold mark_found. destruct (req_and_found c) eqn:E; [reflexivity|exact E].
Qed.

Lemma check_required_map defs s b s' :
  check_required defs s = Ok b s' -> arguments_map_ s' = arguments_map_ s.
Proof. intros H. apply Stable_check_required in H as (_&_&_&_&Em&_). exact Em. Qed.

(** X16. The value given for an option on the command line is what
    [get_arg] reads.  When the scan stands before the alias of a
    value-bearing option, a value follows and no later token matches
    anything, [parse] returns and [get_arg] on that alias extracts from
    exactly that value: as a [std::string] it gives a value without white
    space back whole, as an [int64_t] it gives a decimal number back as
    that number. *)
Theorem option_value_read_back argv pre tok v rest s s1 p c :
  wf s ->
  argv = pre ++ tok :: v :: rest ->
  scan pre (start argv s) = Ok true s1 ->
  auto_help_enable_ s1 && is_help_alias tok = false ->
  arguments_map_ s1 !! tok = Some p ->
  cells s1 !! p = Some c ->
  is_flag c = false ->
  Forall (unmatchable s1) rest ->
  exists b s',
    parse argv s = Ok b s' /\
    (forall T (E : Extract T) (val : T),
        fst <$> run (get_arg val tok) s' = Some (Some (extract val v))) /\
    (forall val : string, v <> "" -> no_space v = true ->
        fst <$> run (get_arg val tok) s' = Some (Some v)) /\
    (forall (val : Z) n, LONG_MIN <= n <= LONG_MAX -> v = to_string (ArgInt64 n) ->
        fst <$> run (get_arg val tok) s' = Some (Some n)).
Proof.
  intros Hwf Hargv Hpre Hh Hp Hc Hf Hrest.
  assert (Hne : argv <> []) by (subst argv; destruct pre; discriminate).
  set (s2 := write_cell p (mark_found (set_value v c)) s1).
  set (s3 := with_unmatched (unmatchd_args_ s2 ++ rest) s2).
  assert (Hwf3 : wf s3).
  { eapply wf_stable; [apply (wf_start argv), Hwf|].
    eapply stable_trans; [eapply Stable_scan, Hpre|].
    eapply stable_trans; [apply (stable_write_cell p (mark_found (set_value v c)))|].
    repeat split. }
  assert (Hparse : parse argv s = check_required (argument_defs_ s3) s3).
  { rewrite parse_start by exact Hne. remember (start argv s) as s0.
    rewrite Hargv, (parse_rest_app _ _ _ _ Hpre). unfold parse_rest, bind.
    erewrite scan_value by eassumption. fold s2.
    rewrite (scan_all_unmatchable rest s2 Hrest). reflexivity. }
  destruct (check_required_total (argument_defs_ s3) s3 (proj2 Hwf3)) as (b & s' & Hb).
  assert (Hread : forall T (E : Extract T) (val : T),
             fst <$> run (get_arg val tok) s' = Some (Some (extract val v))).
  { intros T E val.
    rewrite (get_arg_cell val tok s' p (mark_found (set_value v c))).
    - rewrite value_mark_found. reflexivity.
    - rewrite (check_required_map _ _ _ _ Hb). exact Hp.
    - rewrite (check_required_cells _ _ _ _ Hb). simpl.
      apply list_lookup_insert_eq. eapply lookup_lt_Some, Hc. }
  exists b, s'. split; [rewrite Hparse; exact Hb|]. split; [exact Hread|]. split.
  - intros val Hv Hns. rewrite Hread, (extract_string_no_space val v Hv Hns).
    reflexivity.
  - intros val n Hn ->. rewrite Hread, (extract_to_string_int64 val n Hn).
    reflexivity.
Qed.

Lemma option_value_read_back_witness :
  exists b s',
    parse ["prog"; "--bool"; "42"; "extra"] required_parser = Ok b s' /\
    (forall T (E : Extract T) (val : T),
        fst <$> run (get_arg val "--bool") s' = Some (Some (extract val "42"))) /\
    (forall val : string, "42" <> "" -> no_space "42" = true ->
        fst <$> run (get_arg val "--bool") s' = Some (Some "42")) /\
    (forall (val : Z) n, LONG_MIN <= n <= LONG_MAX -> "42" = to_string (ArgInt64 n) ->
        fst <$> run (get_arg val "--bool") s' = Some (Some n)).
Proof.
  apply (option_value_read_back ["prog"; "--bool"; "42"; "extra"] ["prog"]
           "--bool" "42" ["extra"] required_parser
           (after (scan ["prog"]) (start ["prog"] required_parser))
           0 {| req_and_found := Some false; value := "1"; is_flag := false |}
           wf_required_parser);
    try reflexivity.
  repeat constructor.
Defined.

Lemma cell_evolves_found c c' :
  cell_evolves c c' -> req_and_found c <> Some false ->
  req_and_found c' = req_and_found c.
Proof. intros [_ [E|[E _]]] Hne; [exact E|contradiction]. Qed.

(** X17. A definition whose alias the scan reaches is found.  When the
    scan stands before an alias of a flag, or of an option that is not the
    last token, then however [parse] ends the cell of that definition is
    not pending: its found-state is [true] if the definition is required
    and unset if it is not. *)
Theorem seen_alias_is_found argv pre tok rest s s1 p c b s' :
  argv = pre ++ tok :: rest ->
  scan pre (start argv s) = Ok true s1 ->
  auto_help_enable_ s1 && is_help_alias tok = false ->
  arguments_map_ s1 !! tok = Some p ->
  cells s1 !! p = Some c ->
  is_flag c = true \/ rest <> [] ->
  parse argv s = Ok b s' ->
  exists c',
    cells s' !! p = Some c' /\
    req_and_found c' = if req_and_found c is Some _ then Some true else None.
Proof.
  intros Hargv Hpre Hh Hp Hc Hkind H.
  apply parse_inv in H as (_ & ok & s2 & Hs & H).
  assert (Hcells : cells s' = cells s2).
  { destruct H as [(_ & _ & ->)|(_ & H)]; [reflexivity|].
    eapply check_required_cells, H. }
  rewrite Hcells. clear H Hcells.
  remember (start argv s) as s0. rewrite Hargv, (scan_app _ _ _ _ Hpre) in Hs.
  assert (Hstep : exists v,
            scan (tok :: rest) s1
            = scan (if is_flag c then rest else List.tl rest)
                (write_cell p (mark_found (set_value v c)) s1)).
  { destruct (is_flag c) eqn:Hf.
    - exists "true". eapply scan_flag; eassumption.
    - destruct Hkind as [?|Hrest]; [discriminate|].
      destruct rest as [|v rest']; [contradiction|].
      exists v. eapply scan_value; eassumption. }
  destruct Hstep as [v Hstep]. rewrite Hstep in Hs.
  apply scan_evolves in Hs.
  destruct (Hs p (mark_found (set_value v c))) as (c' & Hc' & He).
  { simpl. apply list_lookup_insert_eq. eapply lookup_lt_Some, Hc. }
  exists c'. split; [exact Hc'|].
  rewrite (cell_evolves_found _ _ He); rewrite req_mark_found; simpl;
    destruct (req_and_found c); [reflexivity|reflexivity|discriminate|discriminate].
Qed.

Lemma seen_alias_is_found_witness :
  exists c',
    cells (after (parse ["prog"; "-b"; "0"]) required_parser) !! 0%nat = Some c' /\
    req_and_found c' = Some true.
Proof.
  apply (seen_alias_is_found ["prog"; "-b"; "0"] ["prog"] "-b" ["0"]
           required_parser
           (after (scan ["prog"]) (start ["prog"] required_parser))
           0 {| req_and_found := Some false; value := "1"; is_flag := false |}
           true (after (parse ["prog"; "-b"; "0"]) required_parser));
    try reflexivity.
  right. discriminate.
Defined.

(** ** The help text *)

Lemma append_nil_r (t : string) : t +:+ "" = t.
Proof.
  induction t as [|c t IH]; [reflexivity|].
  change (String c t +:+ "") with (String c (t +:+ "")). rewrite IH. reflexivity.
Qed.

Lemma append_assoc (t1 t2 t3 : string) : (t1 +:+ t2) +:+ t3 = t1 +:+ t2 +:+ t3.
Proof.
  induction t1 as [|c t1 IH]; [reflexivity|].
  change ((String c t1 +:+ t2) +:+ t3) with (String c ((t1 +:+ t2) +:+ t3)).
  change (String c t1 +:+ t2 +:+ t3) with (String c (t1 +:+ t2 +:+ t3)).
  rewrite IH. reflexivity.
Qed.

Lemma help_entries_snoc defs d cell s s1 body :
  cells s1 = cells s ++ [cell] ->
  allocated_arg d = length (cells s) ->
  help_entries defs s = Ok body s ->
  help_entries (defs ++ [d]) s1 = Ok (body +:+ help_entry d cell) s1.
Proof.
  intros Ec Ed. revert body. induction defs as [|d0 defs IH]; intros body H.
  - injection H as <-. simpl. unfold load.
    rewrite bind_assoc, bind_get, Ec, Ed, lookup_app_r by lia.
    rewrite Nat.sub_diag. simpl. rewrite !bind_ret_l, append_nil_r. reflexivity.
  - simpl in H. apply bind_inv in H as (c & s2 & H1 & H).
    apply bind_inv in H as (rest & s3 & H2 & H).
    unfold load in H1. rewrite bind_get in H1.
    destruct (cells s !! allocated_arg d0) as [c0|] eqn:Hc0; [|discriminate].
    injection H1 as Hc Hs2. subst c s2.
    pose proof (help_entries_state _ _ _ _ H2) as Hs3. subst s3.
    injection H as Hb. subst body.
    simpl. unfold load. rewrite bind_assoc, bind_get, Ec.
    rewrite (lookup_app_l_Some _ _ _ _ Hc0), bind_ret_l.
    rewrite (bind_ok _ _ _ _ _ (IH _ H2)).
    rewrite <- append_assoc. reflexivity.
Qed.

(** X18. The help text lists the definitions in registration order: a
    successful registration leaves the entries of the earlier definitions
    as they were and puts the entry of the new one, with its aliases, its
    description, its default and its required mark, behind them. *)
Theorem help_lists_in_registration_order arg desc dv required fl s body :
  Forall (fun x => arguments_map_ s !! x = None) arg ->
  help_entries (argument_defs_ s) s = Ok body s ->
  exists s1,
    add_arg arg desc dv required fl s = Ok true s1 /\
    help_entries (argument_defs_ s1) s1
    = Ok (body +:+
          help_entry
            {| args := arg; description := desc; default_value := to_string dv;
               allocated_arg := length (cells s) |}
            {| req_and_found := if required then Some false else None;
               value := to_string dv; is_flag := fl |})
         s1.
Proof.
  intros Hfresh Hbody.
  assert (Hfind : List.find
            (fun a => bool_decide (is_Some (arguments_map_ s !! a))) arg = None).
  { destruct (List.find _ arg) as [a'|] eqn:Hfind; [|reflexivity].
    apply find_some in Hfind as [Hin Hb]. apply bool_decide_eq_true in Hb.
    rewrite Forall_forall in Hfresh.
    rewrite (Hfresh a') in Hb by (apply list_elem_of_In, Hin).
    destruct Hb as [? [=]]. }
  eexists. split; [apply add_arg_fresh, Hfind|].
  cbn [argument_defs_ with_registry].
  eapply help_entries_snoc; [reflexivity|reflexivity|exact Hbody].
Qed.

Lemma help_lists_in_registration_order_witness :
  exists s1,
    add_arg ["-o"] "output" (ArgString "") false false help_parser = Ok true s1 /\
    help_entries (argument_defs_ s1) s1
    = Ok (help_body (cells help_parser) (argument_defs_ help_parser) +:+
          help_entry
            {| args := ["-o"]; description := "output";
               default_value := to_string (ArgString "");
               allocated_arg := length (cells help_parser) |}
            {| req_and_found := None;
               value := to_string (ArgString ""); is_flag := false |})
         s1.
Proof.
  apply (help_lists_in_registration_order ["-o"] "output" (ArgString "") false false
           help_parser
           (help_body (cells help_parser) (argument_defs_ help_parser))).
  - repeat constructor.
  - reflexivity.
Defined.

Lemma help_entry_evolves d c c' :
  cell_evolves c c' -> help_entry d c' = help_entry d c.
Proof.
  intros [_ Hr]. unfold help_entry.
  destruct Hr as [->|[-> ->]]; reflexivity.
Qed.

Lemma help_entries_evolves defs s s' body :
  evolves s s' ->
  help_entries defs s = Ok body s -> help_entries defs s' = Ok body s'.
Proof.
  intros He. revert body. induction defs as [|d defs IH]; intros body H.
  - injection H as <-. reflexivity.
  - simpl in H. apply bind_inv in H as (c & s2 & H1 & H).
    apply bind_inv in H as (rest & s3 & H2 & H).
    unfold load in H1. rewrite bind_get in H1.
    destruct (cells s !! allocated_arg d) as [c0|] eqn:Hc0; [|discriminate].
    injection H1 as Hc Hs2. subst c s2.
    pose proof (help_entries_state _ _ _ _ H2) as Hs3. subst s3.
    injection H as Hb. subst body.
    destruct (He _ _ Hc0) as (c' & Hc' & Hev).
    simpl. unfold load. rewrite bind_assoc, bind_get, Hc', bind_ret_l.
    rewrite (bind_ok _ _ _ _ _ (IH _ H2)).
    rewrite (help_entry_evolves _ _ _ Hev). reflexivity.
Qed.

(** X19. Parsing never changes the entries of the help text: they show
    the registered defaults and required marks, not the values and
    found-states that [parse] stores, so help printed after any number of
    calls of [parse] lists the same entries as before. *)
Theorem help_entries_survive_parse argv s b s' body :
  parse argv s = Ok b s' ->
  help_entries (argument_defs_ s) s = Ok body s ->
  help_entries (argument_defs_ s') s' = Ok body s'.
Proof.
  intros H Hbody.
  pose proof (parse_stable _ _ _ _ H) as (_&_&_&Ed&_). rewrite Ed.
  eapply help_entries_evolves; [eapply parse_evolves, H|exact Hbody].
Qed.

Lemma help_entries_survive_parse_witness :
  help_entries
    (argument_defs_ (after (parse ["prog"; "-b"; "7"]) required_parser))
    (after (parse ["prog"; "-b"; "7"]) required_parser)
  = Ok (help_body (cells required_parser) (argument_defs_ required_parser))
      (after (parse ["prog"; "-b"; "7"]) required_parser).
Proof.
  apply (help_entries_survive_parse ["prog"; "-b"; "7"] required_parser true
           (after (parse ["prog"; "-b"; "7"]) required_parser));
    reflexivity.
Defined.
